(** * Shenandoah root verifier

    A shallow embedding of
    [src/hotspot/share/gc/shenandoah/shenandoahRootVerifier.cpp]:
    the root-type bitmask operations of [ShenandoahRootVerifier]
    ([excludes], [verify], [combine]), the scoped
    [ShenandoahGCStateResetter], and the three walking entry points
    [oops_do], [roots_do] and [strong_roots_do] with the two weak-root
    helpers.

    Integers are [Z] with the 32-bit wrap-around of [uint] written out.
    The walks run in a state-and-failure monad over a [World] made of the
    collector state the resetter saves, the state owned by the closure and
    by the rest of the VM, and the log of the calls the walker makes to
    its external root sources.  A failed HotSpot [assert] (debug builds
    only) terminates the VM and is the only failure. *)

From Stdlib Require Import ZArith List Bool Lia FinFun.
Import ListNotations.
Local Open Scope Z_scope.

(* ================================================================== *)
(** * Machine integers *)

Module UInt.

(** Width of HotSpot's [uint] ([unsigned int]). *)
Definition bits : Z := 32.

Definition max : Z := 2 ^ bits - 1.

(** [static_cast<uint>(x)]. *)
Definition cast (x : Z) : Z := x mod 2 ^ bits.

(** [~x] on a [uint]. *)
Definition not (x : Z) : Z := cast (Z.lnot x).

(** [x + y] on [uint]s. *)
Definition add (x y : Z) : Z := cast (x + y).

Definition in_range (x : Z) : Prop := 0 <= x < 2 ^ bits.

End UInt.

(* ================================================================== *)
(** * Root types *)

(** A value of the enumeration [ShenandoahRootVerifier::RootTypes], used
    as a bitmask, is represented by its integer value. *)
Definition RootTypes : Type := Z.

(** The enumerators the walker tests for.  The enumeration is declared in
    [shenandoahRootVerifier.hpp]; the walker below takes the value of every
    enumerator as a parameter [value : RootCategory -> RootTypes]. *)
Inductive RootCategory : Type :=
| CodeRoots
| CLDGRoots
| SerialRoots
| JNIHandleRoots
| WeakRoots
| SerialWeakRoots
| ConcurrentWeakRoots
| StringDedupRoots
| ThreadRoots.

Definition root_categories : list RootCategory :=
  [CodeRoots; CLDGRoots; SerialRoots; JNIHandleRoots; WeakRoots;
   SerialWeakRoots; ConcurrentWeakRoots; StringDedupRoots; ThreadRoots].

(** Modelled from the spec: the enumerator values of [RootTypes] are
    declared in [shenandoahRootVerifier.hpp], which is not among the
    sources.  The specification gives every category its own bit position
    ([1 << bit c]) without fixing the positions, so they are a parameter. *)
Definition enumerator (bit : RootCategory -> Z) (c : RootCategory) : RootTypes :=
  Z.shiftl 1 (bit c).

(** Modelled from the spec: [AllRoots], declared in the same missing
    header, is the bitwise union of all the categories. *)
Definition AllRoots (value : RootCategory -> RootTypes) : RootTypes :=
  fold_right Z.lor 0 (map value root_categories).

(** Modelled from the spec: the bit positions of distinct categories are
    disjoint and fit the mask. *)
Definition disjoint_positions (bit : RootCategory -> Z) : Prop :=
  (forall c, 0 <= bit c < UInt.bits) /\
  (forall c c', bit c = bit c' -> c = c').

(** The positions used wherever a concrete enumeration is needed: the
    categories in the order of [root_categories], from bit 0. *)
Definition bit0 (c : RootCategory) : Z :=
  match c with
  | CodeRoots => 0
  | CLDGRoots => 1
  | SerialRoots => 2
  | JNIHandleRoots => 3
  | WeakRoots => 4
  | SerialWeakRoots => 5
  | ConcurrentWeakRoots => 6
  | StringDedupRoots => 7
  | ThreadRoots => 8
  end.

(** The same positions, except that [ThreadRoots] lies at position 32,
    the first position outside a 32-bit mask. *)
Definition bit_hi (c : RootCategory) : Z :=
  match c with
  | ThreadRoots => 32
  | _ => bit0 c
  end.

(** The condition of the [STATIC_ASSERT] that follows the resetter:
    [(static_cast<uint>(AllRoots) + 1) > static_cast<uint>(AllRoots)]. *)
Definition AllRoots_overflow_check (all_roots : RootTypes) : bool :=
  UInt.add (UInt.cast all_roots) 1 >? UInt.cast all_roots.

(** The walker object; [_types] is its only data member.  (Its constructor
    also calls [Threads::change_thread_claim_token()], which touches
    nothing the functions below read.) *)
Record ShenandoahRootVerifier : Type := { _types : RootTypes }.

(** [void ShenandoahRootVerifier::excludes(RootTypes types)] *)
Definition excludes (this : ShenandoahRootVerifier) (types : RootTypes)
  : ShenandoahRootVerifier :=
  {| _types := Z.land (UInt.cast (_types this)) (UInt.not (UInt.cast types)) |}.

(** [bool ShenandoahRootVerifier::verify(RootTypes type) const] *)
Definition verify (this : ShenandoahRootVerifier) (type : RootTypes) : bool :=
  Z.land (_types this) type =? type.

(** [static RootTypes ShenandoahRootVerifier::combine(RootTypes t1, RootTypes t2)] *)
Definition combine (t1 t2 : RootTypes) : RootTypes :=
  Z.lor (UInt.cast t1) (UInt.cast t2).

(* ================================================================== *)
(** * Collector state *)

(** The part of [ShenandoahHeap] the resetter reads and writes: the
    phase-state bitfield [_gc_state] and the flag behind
    [is_concurrent_weak_root_in_progress()]. *)
Record ShenandoahHeap : Type := {
  gc_state : Z;
  is_concurrent_weak_root_in_progress : bool
}.

(** Modelled from the spec: [ShenandoahSharedBitmap::set], called as
    [heap->_gc_state.set(v)], is declared in
    [shenandoahSharedVariables.hpp], which is not among the sources.  The
    specification has the resetter write the saved bitfield back to the
    live collector state, and the source asserts right after the call that
    [gc_state()] equals the saved value. *)
Definition gc_state_set (v : Z) (h : ShenandoahHeap) : ShenandoahHeap :=
  {| gc_state := v;
     is_concurrent_weak_root_in_progress := is_concurrent_weak_root_in_progress h |}.

(** Modelled from the spec: [ShenandoahHeap::set_concurrent_weak_root_in_progress],
    from [shenandoahHeap.hpp] (not among the sources), writes the flag. *)
Definition set_concurrent_weak_root_in_progress (b : bool) (h : ShenandoahHeap)
  : ShenandoahHeap :=
  {| gc_state := gc_state h;
     is_concurrent_weak_root_in_progress := b |}.

(** The data members of [ShenandoahGCStateResetter]. *)
Record ShenandoahGCStateResetter : Type := {
  _gc_state : Z;
  _concurrent_weak_root_in_progress : bool
}.

(* ================================================================== *)
(** * External root sources *)

Definition Phase : Type := nat.      (* a [WeakProcessorPhase] *)
Definition Storage : Type := nat.    (* an [OopStorage*] *)

(** The liveness predicates handed to the weak-reference processor; the
    walker only ever builds [AlwaysTrueClosure]. *)
Inductive BoolObjectClosure : Type :=
| AlwaysTrueClosure
| OtherBoolObjectClosure (id : nat).

(** The calls by which the walker hands the closure to a root source. *)
Inductive RootSource : Type :=
| CodeCache_blobs_do
| ClassLoaderDataGraph_cld_do
| ClassLoaderDataGraph_roots_cld_do
| JNIHandles_oops_do
| Universe_vm_global_oops_do
| WeakProcessor_weak_oops_do (is_alive : BoolObjectClosure)
| WeakProcessorPhases_processor (phase : Phase) (is_alive : BoolObjectClosure)
| OopStorage_oops_do (storage : Storage)
| ShenandoahStringDedup_oops_do_slow
| Threads_possibly_parallel_oops_do (is_par : bool).

(** The two private helpers of the walker. *)
Inductive WeakHelper : Type :=
| SerialWeakRootsDo
| ConcurrentWeakRootsDo.

(** What the log of a walk records: a call to a root source, or the entry
    into one of the two weak-root helpers. *)
Inductive Event : Type :=
| Visit (s : RootSource)
| Enter (f : WeakHelper).

Inductive Mutex : Type :=
| CodeCache_lock
| ClassLoaderDataGraph_lock.

(** What the walker consumes from the rest of the VM.  [C] is the state of
    the closure and of everything else the root sources touch; [source_do]
    is the effect of one call to a root source with the caller's closure,
    on that state and on the collector state, and is arbitrary. *)
Record Runtime (C : Type) : Type := {
  ASSERT : bool;                          (* debug build: asserts are checked *)
  is_at_safepoint : bool;                 (* SafepointSynchronize::is_at_safepoint() *)
  owned_by_self : Mutex -> bool;          (* lock->owned_by_self() *)
  StringDedup_is_enabled : bool;          (* ShenandoahStringDedup::is_enabled() *)
  serial_iterator : list Phase;           (* WeakProcessorPhases::serial_iterator() *)
  weak_iterator : list Storage;           (* OopStorageSet::weak_iterator() *)
  source_do : RootSource -> C * ShenandoahHeap -> C * ShenandoahHeap
}.

Arguments ASSERT {C} _.
Arguments is_at_safepoint {C} _.
Arguments owned_by_self {C} _ _.
Arguments StringDedup_is_enabled {C} _.
Arguments serial_iterator {C} _.
Arguments weak_iterator {C} _.
Arguments source_do {C} _ _ _.

Record World (C : Type) : Type := {
  heap : ShenandoahHeap;
  client : C;
  calls : list Event
}.

Arguments heap {C} _.
Arguments client {C} _.
Arguments calls {C} _.

(* ================================================================== *)
(** * The monad of a walk *)

(** State passing over [World]; [None] is a failed assert. *)
Definition M (C A : Type) : Type := World C -> option (A * World C).

Definition ret {C A : Type} (a : A) : M C A := fun w => Some (a, w).

Definition bind {C A B : Type} (m : M C A) (k : A -> M C B) : M C B :=
  fun w => match m w with
           | Some (a, w') => k a w'
           | None => None
           end.

Declare Scope walk_scope.
Delimit Scope walk_scope with walk.
Notation "x <- c1 ;; c2" := (bind c1 (fun x => c2))
  (at level 61, c1 at next level, right associativity) : walk_scope.
Notation "c1 ;; c2" := (bind c1 (fun _ => c2))
  (at level 61, right associativity) : walk_scope.
Local Open Scope walk_scope.

Fixpoint for_each {C A : Type} (l : list A) (body : A -> M C unit) : M C unit :=
  match l with
  | [] => ret tt
  | x :: l' => body x ;; for_each l' body
  end.

Section Walker.

Variable C : Type.
Variable rt : Runtime C.
Variable value : RootCategory -> RootTypes.

(** [assert(cond, ...)]: checked in debug builds only. *)
Definition assert_ (cond : bool) : M C unit :=
  fun w => if ASSERT rt && negb cond then None else Some (tt, w).

(** Modelled from the spec: [shenandoah_assert_safepoint()], from
    [shenandoahAsserts.hpp] (not among the sources), requires a global
    safepoint. *)
Definition shenandoah_assert_safepoint : M C unit :=
  assert_ (is_at_safepoint rt).

(** Modelled from the spec: [shenandoah_assert_locked_or_safepoint(lock)],
    from the same header, requires the lock held or a global safepoint. *)
Definition shenandoah_assert_locked_or_safepoint (lock : Mutex) : M C unit :=
  assert_ (owned_by_self rt lock || is_at_safepoint rt).

Definition log (e : Event) : M C unit :=
  fun w => Some (tt, {| heap := heap w; client := client w;
                        calls := calls w ++ [e] |}).

(** One call to a root source with the caller's closure. *)
Definition call (s : RootSource) : M C unit :=
  fun w => let (c, h) := source_do rt s (client w, heap w) in
           Some (tt, {| heap := h; client := c;
                        calls := calls w ++ [Visit s] |}).

(** [ShenandoahGCStateResetter::ShenandoahGCStateResetter()] *)
Definition ShenandoahGCStateResetter_ctor : M C ShenandoahGCStateResetter :=
  fun w => Some ({| _gc_state := gc_state (heap w);
                    _concurrent_weak_root_in_progress :=
                      is_concurrent_weak_root_in_progress (heap w) |}, w).

Definition modify_heap (f : ShenandoahHeap -> ShenandoahHeap) : M C unit :=
  fun w => Some (tt, {| heap := f (heap w); client := client w;
                        calls := calls w |}).

Definition read_gc_state : M C Z :=
  fun w => Some (gc_state (heap w), w).

(** [ShenandoahGCStateResetter::~ShenandoahGCStateResetter()] *)
Definition ShenandoahGCStateResetter_dtor (this : ShenandoahGCStateResetter)
  : M C unit :=
  modify_heap (gc_state_set (_gc_state this)) ;;
  g <- read_gc_state ;;
  assert_ (g =? _gc_state this) ;;
  modify_heap (set_concurrent_weak_root_in_progress
                 (_concurrent_weak_root_in_progress this)).

(** [void ShenandoahRootVerifier::serial_weak_roots_do(OopClosure* cl)] *)
Definition serial_weak_roots_do : M C unit :=
  log (Enter SerialWeakRootsDo) ;;
  for_each (serial_iterator rt)
           (fun phase => call (WeakProcessorPhases_processor phase AlwaysTrueClosure)).

(** [void ShenandoahRootVerifier::concurrent_weak_roots_do(OopClosure* cl)] *)
Definition concurrent_weak_roots_do : M C unit :=
  log (Enter ConcurrentWeakRootsDo) ;;
  for_each (weak_iterator rt)
           (fun storage => call (OopStorage_oops_do storage)).

(** [void ShenandoahRootVerifier::oops_do(OopClosure* oops)].  The
    resetter is a local object: its constructor runs first and its
    destructor when the body of the function has run. *)
Definition oops_do (this : ShenandoahRootVerifier) : M C unit :=
  resetter <- ShenandoahGCStateResetter_ctor ;;
  ( (if verify this (value CodeRoots) then
       shenandoah_assert_locked_or_safepoint CodeCache_lock ;;
       call CodeCache_blobs_do
     else ret tt) ;;
    (if verify this (value CLDGRoots) then
       shenandoah_assert_locked_or_safepoint ClassLoaderDataGraph_lock ;;
       call ClassLoaderDataGraph_cld_do
     else ret tt) ;;
    (if verify this (value SerialRoots) then
       shenandoah_assert_safepoint
     else ret tt) ;;
    (if verify this (value JNIHandleRoots) then
       shenandoah_assert_safepoint ;;
       call JNIHandles_oops_do ;;
       call Universe_vm_global_oops_do
     else ret tt) ;;
    (if verify this (value WeakRoots) then
       shenandoah_assert_safepoint ;;
       call (WeakProcessor_weak_oops_do AlwaysTrueClosure)
     else if verify this (value SerialWeakRoots) then
       shenandoah_assert_safepoint ;;
       serial_weak_roots_do
     else if verify this (value ConcurrentWeakRoots) then
       concurrent_weak_roots_do
     else ret tt) ;;
    (if StringDedup_is_enabled rt && verify this (value StringDedupRoots) then
       shenandoah_assert_safepoint ;;
       call ShenandoahStringDedup_oops_do_slow
     else ret tt) ;;
    (if verify this (value ThreadRoots) then
       shenandoah_assert_safepoint ;;
       call (Threads_possibly_parallel_oops_do false)
     else ret tt) ) ;;
  ShenandoahGCStateResetter_dtor resetter.

(** [void ShenandoahRootVerifier::roots_do(OopClosure* oops)] *)
Definition roots_do (this : ShenandoahRootVerifier) : M C unit :=
  resetter <- ShenandoahGCStateResetter_ctor ;;
  ( shenandoah_assert_safepoint ;;
    call CodeCache_blobs_do ;;
    call ClassLoaderDataGraph_cld_do ;;
    call JNIHandles_oops_do ;;
    call Universe_vm_global_oops_do ;;
    call (WeakProcessor_weak_oops_do AlwaysTrueClosure) ;;
    (if StringDedup_is_enabled rt then
       call ShenandoahStringDedup_oops_do_slow
     else ret tt) ;;
    call (Threads_possibly_parallel_oops_do true) ) ;;
  ShenandoahGCStateResetter_dtor resetter.

(** [void ShenandoahRootVerifier::strong_roots_do(OopClosure* oops)].
    The code-blob closure [blobs] it builds is only handed to the thread
    walk; the function makes no call to [CodeCache::blobs_do]. *)
Definition strong_roots_do (this : ShenandoahRootVerifier) : M C unit :=
  resetter <- ShenandoahGCStateResetter_ctor ;;
  ( shenandoah_assert_safepoint ;;
    call ClassLoaderDataGraph_roots_cld_do ;;
    call JNIHandles_oops_do ;;
    call Universe_vm_global_oops_do ;;
    call (Threads_possibly_parallel_oops_do true) ) ;;
  ShenandoahGCStateResetter_dtor resetter.

(** The three walking entry points. *)
Inductive EntryPoint : Type :=
| OopsDo
| RootsDo
| StrongRootsDo.

Definition walk (e : EntryPoint) (this : ShenandoahRootVerifier) : M C unit :=
  match e with
  | OopsDo => oops_do this
  | RootsDo => roots_do this
  | StrongRootsDo => strong_roots_do this
  end.

End Walker.

(* ================================================================== *)
(** * Observations on the log of a walk *)

(** No event follows a visit of the thread roots. *)
Definition thread_roots_last (tr : list Event) : Prop :=
  forall pre is_par post,
    tr = pre ++ Visit (Threads_possibly_parallel_oops_do is_par) :: post ->
    post = [].

Definition is_thread_visit (e : Event) : bool :=
  match e with
  | Visit (Threads_possibly_parallel_oops_do _) => true
  | _ => false
  end.

(** The three ways of walking the weak roots, as they show in the log: the
    full walk of the weak processor; the helper [serial_weak_roots_do] or
    one of its per-phase calls; the helper [concurrent_weak_roots_do] or
    one of its per-storage calls. *)
Definition is_full_weak (e : Event) : bool :=
  match e with
  | Visit (WeakProcessor_weak_oops_do _) => true
  | _ => false
  end.

Definition is_serial_weak (e : Event) : bool :=
  match e with
  | Enter SerialWeakRootsDo => true
  | Visit (WeakProcessorPhases_processor _ _) => true
  | _ => false
  end.

Definition is_concurrent_weak (e : Event) : bool :=
  match e with
  | Enter ConcurrentWeakRootsDo => true
  | Visit (OopStorage_oops_do _) => true
  | _ => false
  end.

Definition full_weak_walk_runs (tr : list Event) : bool := existsb is_full_weak tr.
Definition serial_strategy_runs (tr : list Event) : bool := existsb is_serial_weak tr.
Definition concurrent_strategy_runs (tr : list Event) : bool :=
  existsb is_concurrent_weak tr.

(** What a computation of the walk monad does to the log, and when it
    returns. *)
Section Outcomes.

Variable C : Type.
Variable rt : Runtime C.

(** Whenever [m] returns it has appended exactly [tr] to the log. *)
Definition emits {A : Type} (m : M C A) (tr : list Event) : Prop :=
  forall w a w', m w = Some (a, w') -> calls w' = calls w ++ tr.

(** [m] returns from every world. *)
Definition completes {A : Type} (m : M C A) : Prop :=
  forall w, exists a w', m w = Some (a, w').

(** No assert of the walker can fail: asserts are compiled out, or the
    VM is at a safepoint. *)
Definition asserts_pass : Prop :=
  ASSERT rt = false \/ is_at_safepoint rt = true.

End Outcomes.

Arguments emits {C A} _ _.
Arguments completes {C A} _.
Arguments asserts_pass {C} _.

(** The log of [oops_do], category by category. *)
Section OopsDoLog.

Variable C : Type.
Variable rt : Runtime C.
Variable value : RootCategory -> RootTypes.
Variable this : ShenandoahRootVerifier.

Definition weak_log : list Event :=
  if verify this (value WeakRoots) then
    [Visit (WeakProcessor_weak_oops_do AlwaysTrueClosure)]
  else if verify this (value SerialWeakRoots) then
    Enter SerialWeakRootsDo ::
    map (fun phase => Visit (WeakProcessorPhases_processor phase AlwaysTrueClosure))
        (serial_iterator rt)
  else if verify this (value ConcurrentWeakRoots) then
    Enter ConcurrentWeakRootsDo ::
    map (fun storage => Visit (OopStorage_oops_do storage)) (weak_iterator rt)
  else [].

Definition before_weak_log : list Event :=
  (if verify this (value CodeRoots) then [Visit CodeCache_blobs_do] else []) ++
  (if verify this (value CLDGRoots) then [Visit ClassLoaderDataGraph_cld_do] else []) ++
  (if verify this (value JNIHandleRoots)
   then [Visit JNIHandles_oops_do; Visit Universe_vm_global_oops_do] else []).

Definition string_dedup_log : list Event :=
  if StringDedup_is_enabled rt && verify this (value StringDedupRoots)
  then [Visit ShenandoahStringDedup_oops_do_slow] else [].

Definition thread_log : list Event :=
  if verify this (value ThreadRoots)
  then [Visit (Threads_possibly_parallel_oops_do false)] else [].

Definition oops_do_log : list Event :=
  before_weak_log ++ weak_log ++ string_dedup_log ++ thread_log.

End OopsDoLog.

(** The log the specification words give [strong_roots_do]: compiled-code
    references, the strong part of the class-loader graph, the handle
    tables, the thread roots. *)
Definition strong_roots_do_claimed_log : list Event :=
  [Visit CodeCache_blobs_do;
   Visit ClassLoaderDataGraph_roots_cld_do;
   Visit JNIHandles_oops_do;
   Visit Universe_vm_global_oops_do;
   Visit (Threads_possibly_parallel_oops_do true)].

(* ================================================================== *)
(** * A concrete runtime *)

(** A debug build at a safepoint, string deduplication on, two serial weak
    phases and three weak storages.  Every call to a root source counts in
    the client state, bumps the phase-state bitfield and flips the
    concurrent-weak flag. *)
Definition rt0 : Runtime nat :=
  {| ASSERT := true;
     is_at_safepoint := true;
     owned_by_self := fun _ => false;
     StringDedup_is_enabled := true;
     serial_iterator := [0%nat; 1%nat];
     weak_iterator := [0%nat; 1%nat; 2%nat];
     source_do := fun _ st =>
       (S (fst st),
        {| gc_state := gc_state (snd st) + 1;
           is_concurrent_weak_root_in_progress :=
             negb (is_concurrent_weak_root_in_progress (snd st)) |}) |}.

Definition value0 : RootCategory -> RootTypes := enumerator bit0.

Definition w0 : World nat :=
  {| heap := {| gc_state := 5; is_concurrent_weak_root_in_progress := false |};
     client := 0%nat;
     calls := [] |}.

(** A walker with every category enabled, and one with both [WeakRoots]
    and [SerialWeakRoots] and nothing else. *)
Definition this_all : ShenandoahRootVerifier :=
  {| _types := AllRoots value0 |}.

Definition this_weak_and_serial : ShenandoahRootVerifier :=
  {| _types := combine (value0 WeakRoots) (value0 SerialWeakRoots) |}.

(** The world a run from [w0] ends in ([w0] itself if an assert fails). *)
Definition run_from_w0 (m : M nat unit) : World nat :=
  match m w0 with
  | Some (_, w) => w
  | None => w0
  end.

Definition w0_oops_do_all : World nat :=
  Eval vm_compute in run_from_w0 (oops_do nat rt0 value0 this_all).

Definition w0_oops_do_weak_and_serial : World nat :=
  Eval vm_compute in run_from_w0 (oops_do nat rt0 value0 this_weak_and_serial).

Definition w0_roots_do : World nat :=
  Eval vm_compute in run_from_w0 (roots_do nat rt0 this_all).

Definition w0_strong_roots_do : World nat :=
  Eval vm_compute in run_from_w0 (strong_roots_do nat rt0 this_all).

(* ================================================================== *)
(** * Effects and outcome of a walk *)

(** The effect of the calls of a log, in order, on the client state and
    the collector state; entering a helper has no effect of its own. *)
Definition run_sources {C : Type} (rt : Runtime C) (tr : list Event)
           (st : C * ShenandoahHeap) : C * ShenandoahHeap :=
  fold_left (fun st e => match e with
                         | Visit s => source_do rt s st
                         | Enter _ => st
                         end) tr st.

Section Effects.

Variable C : Type.
Variable rt : Runtime C.

(** Whenever [m] returns it has appended [tr] to the log and has had
    exactly the effect of the calls of [tr]. *)
Definition performs {A : Type} (m : M C A) (tr : list Event) : Prop :=
  forall w a w',
    m w = Some (a, w') ->
    calls w' = calls w ++ tr /\
    (client w', heap w') = run_sources rt tr (client w, heap w).

(** [m] fails an assert from every world. *)
Definition fails {A : Type} (m : M C A) : Prop :=
  forall w, m w = None.

(** Whether [m] returns does not depend on the world: it always does
    ([ok = true]) or never does. *)
Definition decided {A : Type} (m : M C A) (ok : bool) : Prop :=
  if ok then completes m else fails m.

End Effects.

Arguments performs {C} _ {A} _ _.
Arguments fails {C A} _.
Arguments decided {C A} _ _.

(** The log of each entry point. *)
Definition walk_log (C : Type) (rt : Runtime C) (value : RootCategory -> RootTypes)
           (e : EntryPoint) (this : ShenandoahRootVerifier) : list Event :=
  match e with
  | OopsDo => oops_do_log C rt value this
  | RootsDo =>
      [Visit CodeCache_blobs_do;
       Visit ClassLoaderDataGraph_cld_do;
       Visit JNIHandles_oops_do;
       Visit Universe_vm_global_oops_do;
       Visit (WeakProcessor_weak_oops_do AlwaysTrueClosure)]
      ++ (if StringDedup_is_enabled rt
          then [Visit ShenandoahStringDedup_oops_do_slow] else [])
      ++ [Visit (Threads_possibly_parallel_oops_do true)]
  | StrongRootsDo =>
      [Visit ClassLoaderDataGraph_roots_cld_do;
       Visit JNIHandles_oops_do;
       Visit Universe_vm_global_oops_do;
       Visit (Threads_possibly_parallel_oops_do true)]
  end.

(** The conjunction of the asserts [oops_do] reaches for a given set: each
    is guarded by the [verify] test of its branch. *)
Definition oops_do_asserts (C : Type) (rt : Runtime C)
           (value : RootCategory -> RootTypes) (this : ShenandoahRootVerifier) : bool :=
  implb (verify this (value CodeRoots))
        (owned_by_self rt CodeCache_lock || is_at_safepoint rt) &&
  implb (verify this (value CLDGRoots))
        (owned_by_self rt ClassLoaderDataGraph_lock || is_at_safepoint rt) &&
  implb (verify this (value SerialRoots)) (is_at_safepoint rt) &&
  implb (verify this (value JNIHandleRoots)) (is_at_safepoint rt) &&
  implb (verify this (value WeakRoots) || verify this (value SerialWeakRoots))
        (is_at_safepoint rt) &&
  implb (StringDedup_is_enabled rt && verify this (value StringDedupRoots))
        (is_at_safepoint rt) &&
  implb (verify this (value ThreadRoots)) (is_at_safepoint rt).

(** The events of the branch of [oops_do] that each category guards. *)
Definition dispatches (c : RootCategory) (e : Event) : bool :=
  match c, e with
  | CodeRoots, Visit CodeCache_blobs_do => true
  | CLDGRoots, Visit ClassLoaderDataGraph_cld_do => true
  | JNIHandleRoots, Visit JNIHandles_oops_do => true
  | JNIHandleRoots, Visit Universe_vm_global_oops_do => true
  | WeakRoots, _ => is_full_weak e
  | SerialWeakRoots, _ => is_serial_weak e
  | ConcurrentWeakRoots, _ => is_concurrent_weak e
  | StringDedupRoots, Visit ShenandoahStringDedup_oops_do_slow => true
  | ThreadRoots, _ => is_thread_visit e
  | _, _ => false
  end.

(** A caller that makes several walks in a row, each by an entry point of
    a walker of its own. *)
Definition run_walks (C : Type) (rt : Runtime C) (value : RootCategory -> RootTypes)
           (walks : list (EntryPoint * ShenandoahRootVerifier)) : M C unit :=
  for_each walks (fun p => walk C rt value (fst p) (snd p)).

(** A walker with no category enabled. *)
Definition this_none : ShenandoahRootVerifier := {| _types := 0 |}.

(** A debug build outside a safepoint, no lock held; the root sources act
    as in [rt0]. *)
Definition rt1 : Runtime nat :=
  {| ASSERT := true;
     is_at_safepoint := false;
     owned_by_self := fun _ => false;
     StringDedup_is_enabled := true;
     serial_iterator := serial_iterator rt0;
     weak_iterator := weak_iterator rt0;
     source_do := source_do rt0 |}.

(* ================================================================== *)
(** * Bit-level facts about the root-type operations *)

Section Bits.

Lemma bits_nonneg : 0 <= UInt.bits.
Proof. unfold UInt.bits; lia. Qed.

Lemma cast_testbit (x n : Z) :
  Z.testbit (UInt.cast x) n = (n <? UInt.bits) && Z.testbit x n.
Proof. unfold UInt.cast. apply Z.testbit_mod_pow2, bits_nonneg. Qed.

Lemma not_testbit (x n : Z) :
  0 <= n -> Z.testbit (UInt.not x) n = (n <? UInt.bits) && negb (Z.testbit x n).
Proof.
  intros Hn. unfold UInt.not. rewrite cast_testbit, Z.lnot_spec by assumption.
  reflexivity.
Qed.

Lemma cast_range (x : Z) : UInt.in_range (UInt.cast x).
Proof.
  unfold UInt.in_range, UInt.cast. apply Z.mod_pos_bound.
  apply Z.pow_pos_nonneg; [lia | apply bits_nonneg].
Qed.

Lemma cast_id (x : Z) : UInt.in_range x -> UInt.cast x = x.
Proof. unfold UInt.in_range, UInt.cast. intros H. apply Z.mod_small, H. Qed.

(** [verify] is the all-bits-present test. *)
Lemma verify_testbit (this : ShenandoahRootVerifier) (type : RootTypes) :
  verify this type = true <->
  (forall n, 0 <= n -> Z.testbit type n = true -> Z.testbit (_types this) n = true).
Proof.
  unfold verify. rewrite Z.eqb_eq. split.
  - intros H n Hn Hb. rewrite <- H, Z.land_spec in Hb.
    apply andb_true_iff in Hb. apply Hb.
  - intros H. apply Z.bits_inj'. intros n Hn. rewrite Z.land_spec.
    destruct (Z.testbit type n) eqn:Hb.
    + rewrite (H n Hn Hb). reflexivity.
    + apply andb_false_r.
Qed.

Lemma fold_lor_testbit (l : list Z) (n : Z) :
  Z.testbit (fold_right Z.lor 0 l) n = existsb (fun x => Z.testbit x n) l.
Proof.
  induction l as [|x l IH]; simpl.
  - apply Z.bits_0.
  - rewrite Z.lor_spec, IH. reflexivity.
Qed.

Lemma AllRoots_testbit (value : RootCategory -> RootTypes) (n : Z) :
  Z.testbit (AllRoots value) n = true <->
  exists c, Z.testbit (value c) n = true.
Proof.
  unfold AllRoots. rewrite fold_lor_testbit, existsb_exists. split.
  - intros [x [Hin Hx]]. apply in_map_iff in Hin.
    destruct Hin as [c [Hc _]]. exists c. rewrite Hc. exact Hx.
  - intros [c Hc]. exists (value c). split; [|exact Hc].
    apply in_map. destruct c; simpl; tauto.
Qed.

(** The overflow check fails at exactly one value of the mask type. *)
Lemma overflow_check_max (a : RootTypes) :
  AllRoots_overflow_check a = true <-> UInt.cast a <> UInt.max.
Proof.
  unfold AllRoots_overflow_check, UInt.add.
  pose proof (cast_range a) as Hr. unfold UInt.in_range in Hr.
  set (x := UInt.cast a) in *. unfold UInt.max, UInt.cast, UInt.bits in *.
  rewrite Z.gtb_ltb, Z.ltb_lt.
  change (2 ^ 32) with 4294967296 in *.
  destruct (Z.eq_dec x 4294967295) as [E|N].
  - rewrite E. change ((4294967295 + 1) mod 4294967296) with 0.
    split; [lia | intros H; exfalso; apply H; reflexivity].
  - rewrite (Z.mod_small (x + 1)) by lia. split; [intros _; lia | lia].
Qed.

End Bits.

(* ================================================================== *)
(** * The root-type set: [verify], [combine], [excludes] *)

(** C6: [verify] answers true exactly when every bit of the category mask
    is set in the walker's [_types] (all bits present); for every
    enumeration, [AllRoots] contains each single category; and one common
    bit is not enough, a walker holding only [CodeRoots] does not contain
    [AllRoots]. *)
Theorem verify_all_bits_present :
  (forall (this : ShenandoahRootVerifier) (category : RootTypes),
      verify this category = true <->
      (forall n, 0 <= n ->
                 Z.testbit category n = true -> Z.testbit (_types this) n = true)) /\
  (forall (value : RootCategory -> RootTypes) (c : RootCategory),
      verify {| _types := AllRoots value |} (value c) = true) /\
  (let this := {| _types := enumerator bit0 CodeRoots |} in
   let category := AllRoots (enumerator bit0) in
   Z.land (_types this) category <> 0 /\ verify this category = false).
Proof.
  split; [|split].
  - intros this category. apply verify_testbit.
  - intros value c. apply verify_testbit. simpl. intros n _ Hb.
    apply AllRoots_testbit. exists c. exact Hb.
  - split; [discriminate | reflexivity].
Qed.

(** C7: excluding [c] from [combine s c] leaves the same mask as excluding
    [c] from [s], bit for bit; [combine] is the bitwise or and [excludes]
    the bitwise and with the bitwise not, on the 32 bits of the mask. *)
Theorem excludes_combine (s c : RootTypes) :
  excludes {| _types := combine s c |} c = excludes {| _types := s |} c /\
  (forall n, 0 <= n ->
     Z.testbit (combine s c) n =
     (n <? UInt.bits) && (Z.testbit s n || Z.testbit c n)) /\
  (forall n, 0 <= n ->
     Z.testbit (_types (excludes {| _types := s |} c)) n =
     (n <? UInt.bits) && (Z.testbit s n && negb (Z.testbit c n))).
Proof.
  unfold excludes, combine. simpl. split; [|split].
  - f_equal. apply Z.bits_inj'. intros n Hn.
    rewrite !Z.land_spec, !not_testbit, !cast_testbit, Z.lor_spec, !cast_testbit
      by assumption.
    destruct (n <? UInt.bits), (Z.testbit s n), (Z.testbit c n); reflexivity.
  - intros n Hn. rewrite Z.lor_spec, !cast_testbit.
    destruct (n <? UInt.bits); reflexivity.
  - intros n Hn.
    rewrite Z.land_spec, not_testbit, !cast_testbit by assumption.
    destruct (n <? UInt.bits), (Z.testbit s n), (Z.testbit c n); reflexivity.
Qed.

(** C9: on masks of the walker's unsigned type, [verify] of a combination
    holds exactly when [verify] holds of both operands. *)
Theorem verify_combine (this : ShenandoahRootVerifier) (t1 t2 : RootTypes) :
  UInt.in_range t1 -> UInt.in_range t2 ->
  (verify this (combine t1 t2) = true <->
   verify this t1 = true /\ verify this t2 = true).
Proof.
  intros H1 H2. unfold combine. rewrite (cast_id t1 H1), (cast_id t2 H2).
  rewrite !verify_testbit. split.
  - intros H. split; intros n Hn Hb; apply (H n Hn); rewrite Z.lor_spec, Hb.
    + reflexivity.
    + apply orb_true_r.
  - intros [Ha Hb] n Hn Hc. rewrite Z.lor_spec in Hc.
    apply orb_true_iff in Hc. destruct Hc as [Hc|Hc]; auto.
Qed.

Lemma verify_combine_witness :
  verify {| _types := 7 |} (combine 1 2) = true <->
  verify {| _types := 7 |} 1 = true /\ verify {| _types := 7 |} 2 = true.
Proof.
  apply (verify_combine {| _types := 7 |} 1 2);
    unfold UInt.in_range, UInt.bits; lia.
Defined.

(** C10: every walker contains the empty category mask. *)
Theorem verify_empty (this : ShenandoahRootVerifier) : verify this 0 = true.
Proof. unfold verify. rewrite Z.land_0_r. reflexivity. Qed.

(* ================================================================== *)
(** * The overflow check on [AllRoots] *)

Section Overflow.

Variable bit : RootCategory -> Z.

(** A bit of a category mask is the bit at the category's position. *)
Lemma enumerator_bit (c : RootCategory) (n : Z) :
  0 <= n -> Z.testbit (enumerator bit c) n = true -> n = bit c.
Proof.
  intros Hn. unfold enumerator. rewrite Z.shiftl_spec by assumption.
  change 1 with (2 ^ 0). rewrite Z.pow2_bits_eqb by lia.
  rewrite Z.eqb_eq. lia.
Qed.

(** Nine single-bit categories cannot fill ten positions. *)
Lemma AllRoots_clear_bit :
  exists n, 0 <= n < 10 /\ Z.testbit (AllRoots (enumerator bit)) n = false.
Proof.
  set (low := map Z.of_nat (seq 0 10)).
  destruct (forallb (fun n => Z.testbit (AllRoots (enumerator bit)) n) low) eqn:E.
  - exfalso. rewrite forallb_forall in E.
    assert (Hincl : incl low (map bit root_categories)).
    { intros n Hin. pose proof (E n Hin) as Hb.
      apply AllRoots_testbit in Hb. destruct Hb as [c Hc].
      assert (0 <= n).
      { unfold low in Hin. apply in_map_iff in Hin.
        destruct Hin as [k [<- _]]. lia. }
      rewrite (enumerator_bit c n) by assumption.
      apply in_map. destruct c; simpl; tauto. }
    assert (Hnd : NoDup low).
    { unfold low. apply Injective_map_NoDup.
      - intros x y. apply Nat2Z.inj.
      - apply seq_NoDup. }
    pose proof (NoDup_incl_length Hnd Hincl) as Hlen.
    unfold low in Hlen. rewrite !length_map, length_seq in Hlen.
    simpl in Hlen. lia.
  - assert (Hex : existsb (fun n => negb (Z.testbit (AllRoots (enumerator bit)) n)) low = true).
    { clear -E. induction low as [|x l IH]; simpl in *; [discriminate|].
      apply andb_false_iff in E. destruct E as [E|E].
      - rewrite E. reflexivity.
      - rewrite (IH E). apply orb_true_r. }
    apply existsb_exists in Hex. destruct Hex as [n [Hin Hb]].
    exists n. split.
    + unfold low in Hin. apply in_map_iff in Hin.
      destruct Hin as [k [<- Hk]]. apply in_seq in Hk. lia.
    + apply negb_true_iff, Hb.
Qed.

Lemma AllRoots_not_max : UInt.cast (AllRoots (enumerator bit)) <> UInt.max.
Proof.
  intros E. destruct AllRoots_clear_bit as [n [Hn Hb]].
  assert (Hc : Z.testbit (UInt.cast (AllRoots (enumerator bit))) n = false).
  { rewrite cast_testbit, Hb. apply andb_false_r. }
  rewrite E in Hc. unfold UInt.max in Hc.
  replace (2 ^ UInt.bits - 1) with (Z.ones UInt.bits) in Hc
    by (rewrite Z.ones_equiv; lia).
  rewrite Z.ones_spec_low in Hc; [discriminate|].
  unfold UInt.bits. lia.
Qed.

Lemma AllRoots_in_range :
  (forall c, 0 <= bit c < UInt.bits) -> UInt.in_range (AllRoots (enumerator bit)).
Proof.
  intros Hpos.
  assert (E : UInt.cast (AllRoots (enumerator bit)) = AllRoots (enumerator bit)).
  { apply Z.bits_inj'. intros n Hn. rewrite cast_testbit.
    destruct (Z.ltb_spec n UInt.bits) as [Hlt|Hge]; [reflexivity|].
    simpl. symmetry. apply not_true_is_false. intros Hb.
    apply AllRoots_testbit in Hb. destruct Hb as [c Hc].
    apply enumerator_bit in Hc; [|assumption].
    specialize (Hpos c). lia. }
  rewrite <- E. apply cast_range.
Qed.

End Overflow.

(** C8, as the code has it: the statically asserted condition
    [(uint(AllRoots) + 1) > uint(AllRoots)] holds of [AllRoots], the union
    of nine single-bit categories, wherever the bits lie; and the condition
    says exactly that the [uint] value of the mask is not the largest value
    of the mask type. *)
Theorem AllRoots_no_overflow (bit : RootCategory -> Z) :
  AllRoots_overflow_check (AllRoots (enumerator bit)) = true /\
  UInt.cast (AllRoots (enumerator bit)) <> UInt.max /\
  (forall a : RootTypes,
      AllRoots_overflow_check a = true <-> UInt.cast a <> UInt.max).
Proof.
  pose proof (AllRoots_not_max bit) as Hm.
  split; [|split].
  - apply overflow_check_max, Hm.
  - exact Hm.
  - apply overflow_check_max.
Qed.

Lemma bit0_disjoint : disjoint_positions bit0.
Proof.
  split.
  - intros c. unfold UInt.bits. destruct c; simpl; lia.
  - intros c c'. destruct c, c'; simpl; intros E; try reflexivity; discriminate E.
Defined.

Lemma AllRoots_no_overflow_witness :
  AllRoots_overflow_check (AllRoots (enumerator bit0)) = true /\
  AllRoots (enumerator bit0) = 511.
Proof.
  split; [|reflexivity].
  exact (proj1 (AllRoots_no_overflow bit0)).
Defined.

(** C8, as the specification words it, fails: the check is not the same
    as the width of the mask exceeding the highest bit of the value.  The
    all-ones mask has its highest bit, 31, below the width and fails the
    check; and with a category at position 32, outside the mask, the check
    still passes. *)
Lemma overflow_check_is_not_bit_width :
  (Z.log2 UInt.max < UInt.bits /\ AllRoots_overflow_check UInt.max = false) /\
  (AllRoots_overflow_check (AllRoots (enumerator bit_hi)) = true /\
   Z.log2 (AllRoots (enumerator bit_hi)) = UInt.bits).
Proof. repeat split. Qed.

(* ================================================================== *)
(** * Reasoning about walks *)

Section WalkLemmas.

Variable C : Type.
Variable rt : Runtime C.

Lemma emits_ret {A : Type} (a : A) : emits (@ret C A a) [].
Proof.
  intros w b w' H. unfold ret in H. injection H as _ <-.
  symmetry. apply app_nil_r.
Qed.

Lemma emits_bind {A B : Type} (m : M C A) (k : A -> M C B) (t1 t2 : list Event) :
  emits m t1 -> (forall a, emits (k a) t2) -> emits (bind m k) (t1 ++ t2).
Proof.
  intros H1 H2 w b w' H. unfold bind in H.
  destruct (m w) as [[a w1]|] eqn:E; [|discriminate].
  rewrite (H2 a _ _ _ H), (H1 _ _ _ E), app_assoc. reflexivity.
Qed.

Lemma emits_if {A : Type} (b : bool) (m1 m2 : M C A) (t1 t2 : list Event) :
  emits m1 t1 -> emits m2 t2 ->
  emits (if b then m1 else m2) (if b then t1 else t2).
Proof. destruct b; auto. Qed.

Lemma emits_eq {A : Type} (m : M C A) (t t' : list Event) :
  emits m t -> t = t' -> emits m t'.
Proof. intros H <-. exact H. Qed.

Lemma emits_assert (cond : bool) : emits (assert_ C rt cond) [].
Proof.
  intros w a w' H. unfold assert_ in H.
  destruct (ASSERT rt && negb cond); [discriminate|].
  injection H as _ <-. symmetry. apply app_nil_r.
Qed.

Lemma emits_log (e : Event) : emits (log C e) [e].
Proof. intros w a w' H. unfold log in H. injection H as _ <-. reflexivity. Qed.

Lemma emits_call (s : RootSource) : emits (call C rt s) [Visit s].
Proof.
  intros w a w' H. unfold call in H.
  destruct (source_do rt s (client w, heap w)) as [c h].
  injection H as _ <-. reflexivity.
Qed.

Lemma emits_for_each_call {X : Type} (g : X -> RootSource) (l : list X) :
  emits (for_each l (fun x => call C rt (g x))) (map (fun x => Visit (g x)) l).
Proof.
  induction l as [|x l IH]; simpl.
  - apply emits_ret.
  - apply (emits_bind _ _ [Visit (g x)]).
    + apply emits_call.
    + intros _. exact IH.
Qed.

Lemma completes_ret {A : Type} (a : A) : completes (@ret C A a).
Proof. intros w. exists a, w. reflexivity. Qed.

Lemma completes_bind {A B : Type} (m : M C A) (k : A -> M C B) :
  completes m -> (forall a, completes (k a)) -> completes (bind m k).
Proof.
  intros H1 H2 w. destruct (H1 w) as [a [w1 E]].
  destruct (H2 a w1) as [b [w2 E2]]. exists b, w2.
  unfold bind. rewrite E. exact E2.
Qed.

Lemma completes_if {A : Type} (b : bool) (m1 m2 : M C A) :
  completes m1 -> completes m2 -> completes (if b then m1 else m2).
Proof. destruct b; auto. Qed.

Lemma completes_assert (cond : bool) :
  ASSERT rt = false \/ cond = true -> completes (assert_ C rt cond).
Proof.
  intros H w. exists tt, w. unfold assert_.
  destruct H as [-> | ->]; [reflexivity|].
  simpl. rewrite andb_false_r. reflexivity.
Qed.

Lemma completes_log (e : Event) : completes (log C e).
Proof. intros w. eexists _, _. reflexivity. Qed.

Lemma completes_call (s : RootSource) : completes (call C rt s).
Proof.
  intros w. unfold call.
  destruct (source_do rt s (client w, heap w)) as [c h].
  eexists _, _. reflexivity.
Qed.

Lemma completes_for_each {X : Type} (body : X -> M C unit) (l : list X) :
  (forall x, completes (body x)) -> completes (for_each l body).
Proof.
  intros H. induction l as [|x l IH]; simpl.
  - apply completes_ret.
  - apply completes_bind; [apply H | intros _; exact IH].
Qed.

Lemma assert_safepoint_completes :
  asserts_pass rt -> completes (shenandoah_assert_safepoint C rt).
Proof. intros H. apply completes_assert, H. Qed.

Lemma assert_locked_or_safepoint_completes (lock : Mutex) :
  asserts_pass rt -> completes (shenandoah_assert_locked_or_safepoint C rt lock).
Proof.
  intros [H|H]; apply completes_assert; [left; exact H|].
  right. rewrite H. apply orb_true_r.
Qed.

(** The destructor always passes its own assert, and leaves the saved
    values in the collector state. *)
Lemma dtor_run (r : ShenandoahGCStateResetter) (w : World C) :
  ShenandoahGCStateResetter_dtor C rt r w =
  Some (tt, {| heap := {| gc_state := _gc_state r;
                          is_concurrent_weak_root_in_progress :=
                            _concurrent_weak_root_in_progress r |};
               client := client w;
               calls := calls w |}).
Proof.
  unfold ShenandoahGCStateResetter_dtor, bind, modify_heap, read_gc_state,
    assert_. simpl.
  rewrite Z.eqb_refl. simpl. rewrite andb_false_r. reflexivity.
Qed.

(** A function body run between the constructor and the destructor of a
    local resetter. *)
Lemma scoped_run (body : M C unit) (w : World C) :
  (resetter <- ShenandoahGCStateResetter_ctor C ;;
   body ;;
   ShenandoahGCStateResetter_dtor C rt resetter) w =
  match body w with
  | Some (_, w1) =>
      Some (tt, {| heap := heap w; client := client w1; calls := calls w1 |})
  | None => None
  end.
Proof.
  unfold bind at 1 2. unfold ShenandoahGCStateResetter_ctor.
  destruct (body w) as [[u w1]|]; [|reflexivity].
  rewrite dtor_run. simpl. destruct (heap w). reflexivity.
Qed.

Lemma scoped_restores (body : M C unit) (w w' : World C) (u : unit) :
  (resetter <- ShenandoahGCStateResetter_ctor C ;;
   body ;;
   ShenandoahGCStateResetter_dtor C rt resetter) w = Some (u, w') ->
  heap w' = heap w.
Proof.
  rewrite scoped_run. destruct (body w) as [[u1 w1]|]; [|discriminate].
  intros H. injection H as _ <-. reflexivity.
Qed.

Lemma scoped_emits (body : M C unit) (tr : list Event) :
  emits body tr ->
  emits (resetter <- ShenandoahGCStateResetter_ctor C ;;
         body ;;
         ShenandoahGCStateResetter_dtor C rt resetter) tr.
Proof.
  intros Hb w a w' H. rewrite scoped_run in H.
  destruct (body w) as [[u1 w1]|] eqn:E; [|discriminate].
  injection H as _ <-. simpl. exact (Hb _ _ _ E).
Qed.

Lemma scoped_completes (body : M C unit) :
  completes body ->
  completes (resetter <- ShenandoahGCStateResetter_ctor C ;;
             body ;;
             ShenandoahGCStateResetter_dtor C rt resetter).
Proof.
  intros Hb w. destruct (Hb w) as [u [w1 E]].
  rewrite scoped_run, E. eexists _, _. reflexivity.
Qed.

End WalkLemmas.

(* ================================================================== *)
(** * The three entry points *)

Ltac unfold_helpers :=
  unfold shenandoah_assert_safepoint, shenandoah_assert_locked_or_safepoint,
    serial_weak_roots_do, concurrent_weak_roots_do.

Ltac emits_steps :=
  repeat first
    [ apply emits_for_each_call
    | apply emits_call
    | apply emits_log
    | apply emits_assert
    | apply emits_ret
    | eapply emits_if
    | eapply emits_bind; [|intros ?] ].

Ltac completes_steps H :=
  repeat first
    [ apply completes_ret
    | apply completes_call
    | apply completes_log
    | apply (assert_safepoint_completes _ _ H)
    | apply (assert_locked_or_safepoint_completes _ _ _ H)
    | apply completes_for_each; intros ?
    | apply completes_if
    | apply completes_bind; [|intros ?] ].

Section EntryPoints.

Variable C : Type.
Variable rt : Runtime C.
Variable value : RootCategory -> RootTypes.
Variable this : ShenandoahRootVerifier.

Lemma oops_do_emits :
  emits (oops_do C rt value this) (oops_do_log C rt value this).
Proof.
  unfold oops_do. apply scoped_emits. unfold_helpers.
  eapply emits_eq; [emits_steps|].
  unfold oops_do_log, before_weak_log, weak_log, string_dedup_log, thread_log.
  repeat match goal with
         | |- context [if ?b then _ else _] => destruct b
         end; reflexivity.
Qed.

Lemma roots_do_emits :
  emits (roots_do C rt this)
        ([Visit CodeCache_blobs_do;
          Visit ClassLoaderDataGraph_cld_do;
          Visit JNIHandles_oops_do;
          Visit Universe_vm_global_oops_do;
          Visit (WeakProcessor_weak_oops_do AlwaysTrueClosure)]
         ++ (if StringDedup_is_enabled rt
             then [Visit ShenandoahStringDedup_oops_do_slow] else [])
         ++ [Visit (Threads_possibly_parallel_oops_do true)]).
Proof.
  unfold roots_do. apply scoped_emits. unfold_helpers.
  eapply emits_eq; [emits_steps|].
  destruct (StringDedup_is_enabled rt); reflexivity.
Qed.

Lemma strong_roots_do_emits :
  emits (strong_roots_do C rt this)
        [Visit ClassLoaderDataGraph_roots_cld_do;
         Visit JNIHandles_oops_do;
         Visit Universe_vm_global_oops_do;
         Visit (Threads_possibly_parallel_oops_do true)].
Proof.
  unfold strong_roots_do. apply scoped_emits. unfold_helpers.
  eapply emits_eq; [emits_steps|]. reflexivity.
Qed.

Lemma oops_do_completes :
  asserts_pass rt -> completes (oops_do C rt value this).
Proof.
  intros H. unfold oops_do. apply scoped_completes.
  unfold serial_weak_roots_do, concurrent_weak_roots_do. completes_steps H.
Qed.

Lemma roots_do_completes : asserts_pass rt -> completes (roots_do C rt this).
Proof.
  intros H. unfold roots_do. apply scoped_completes. completes_steps H.
Qed.

Lemma strong_roots_do_completes :
  asserts_pass rt -> completes (strong_roots_do C rt this).
Proof.
  intros H. unfold strong_roots_do. apply scoped_completes. completes_steps H.
Qed.

Lemma walk_completes (e : EntryPoint) :
  asserts_pass rt -> completes (walk C rt value e this).
Proof.
  intros H. destruct e; simpl.
  - apply oops_do_completes, H.
  - apply roots_do_completes, H.
  - apply strong_roots_do_completes, H.
Qed.

Lemma walk_restores (e : EntryPoint) (w w' : World C) (u : unit) :
  walk C rt value e this w = Some (u, w') -> heap w' = heap w.
Proof. destruct e; simpl; apply scoped_restores. Qed.

End EntryPoints.

(* ================================================================== *)
(** * Facts about logs *)

Section Logs.

Lemma thread_roots_last_app (A T : list Event) :
  forallb (fun e => negb (is_thread_visit e)) A = true ->
  (length T <= 1)%nat ->
  thread_roots_last (A ++ T).
Proof.
  intros HA HT pre is_par post. revert pre.
  induction A as [|a A IH]; intros pre E; simpl in *.
  - destruct T as [|t [|t' T]]; simpl in HT; [| |lia].
    + destruct pre; discriminate E.
    + destruct pre as [|x pre]; simpl in E.
      * injection E as _ <-. reflexivity.
      * injection E as _ E. destruct pre; discriminate E.
  - apply andb_true_iff in HA. destruct HA as [Ha HA].
    destruct pre as [|x pre]; simpl in E.
    + injection E as -> _. discriminate Ha.
    + injection E as _ E. exact (IH HA pre E).
Qed.

Lemma forallb_map_visit {X : Type} (f : Event -> bool) (g : X -> RootSource)
      (l : list X) :
  (forall x, f (Visit (g x)) = true) ->
  forallb f (map (fun x => Visit (g x)) l) = true.
Proof.
  intros H. induction l as [|x l IH]; simpl; [reflexivity|].
  rewrite H, IH. reflexivity.
Qed.

Lemma existsb_map_visit {X : Type} (f : Event -> bool) (g : X -> RootSource)
      (l : list X) :
  (forall x, f (Visit (g x)) = false) ->
  existsb f (map (fun x => Visit (g x)) l) = false.
Proof.
  intros H. induction l as [|x l IH]; simpl; [reflexivity|].
  rewrite H, IH. reflexivity.
Qed.

Variable C : Type.
Variable rt : Runtime C.
Variable value : RootCategory -> RootTypes.
Variable this : ShenandoahRootVerifier.

Lemma oops_do_log_thread_last : thread_roots_last (oops_do_log C rt value this).
Proof.
  unfold oops_do_log. rewrite 2 app_assoc.
  apply thread_roots_last_app.
  - rewrite !forallb_app.
    unfold before_weak_log, weak_log, string_dedup_log.
    repeat match goal with
           | |- context [if ?b then _ else _] => destruct b
           end; simpl;
      rewrite ?forallb_map_visit by reflexivity; reflexivity.
  - unfold thread_log. destruct (verify this (value ThreadRoots)); simpl; lia.
Qed.





End Logs.

(* ================================================================== *)
(** * The collector-state guard *)

(** C1: whichever entry point runs, and whatever the root sources and the
    closure do to the collector state during the walk, a walk that returns
    leaves the phase-state bitfield and the concurrent-weak flag as they
    were before it; and when no assert can fail the walk does return. *)
Theorem resetter_restores_collector_state
        (C : Type) (rt : Runtime C) (value : RootCategory -> RootTypes)
        (e : EntryPoint) (this : ShenandoahRootVerifier) (w : World C) :
  (forall w', walk C rt value e this w = Some (tt, w') ->
              gc_state (heap w') = gc_state (heap w) /\
              is_concurrent_weak_root_in_progress (heap w') =
              is_concurrent_weak_root_in_progress (heap w)) /\
  (asserts_pass rt -> exists w', walk C rt value e this w = Some (tt, w')).
Proof.
  split.
  - intros w' H. apply walk_restores in H. rewrite H. split; reflexivity.
  - intros H. destruct (walk_completes C rt value this e H w) as [[] [w' E]].
    exists w'. exact E.
Qed.

(** At [rt0] every call to a root source changes both values, seven calls
    are made, and both values are back at the end. *)
Lemma resetter_restores_collector_state_witness :
  exists w', walk nat rt0 value0 OopsDo this_all w0 = Some (tt, w') /\
             client w' = 7%nat /\
             gc_state (heap w') = 5 /\
             is_concurrent_weak_root_in_progress (heap w') = false.
Proof.
  destruct (resetter_restores_collector_state nat rt0 value0 OopsDo this_all w0)
    as [Hrestore Hreturn].
  destruct (Hreturn (or_intror eq_refl)) as [w' E].
  exists w'. split; [exact E|]. split.
  - vm_compute in E. injection E as <-. reflexivity.
  - exact (Hrestore w' E).
Defined.

(* ================================================================== *)
(** * Order of the visits *)

(** C2: in the log of a run of any of the three entry points, nothing
    follows the visit of the thread roots. *)
Theorem thread_roots_visited_last
        (C : Type) (rt : Runtime C) (value : RootCategory -> RootTypes)
        (e : EntryPoint) (this : ShenandoahRootVerifier) (w w' : World C) :
  walk C rt value e this w = Some (tt, w') ->
  exists tr, calls w' = calls w ++ tr /\ thread_roots_last tr.
Proof.
  destruct e; simpl; intros H.
  - exists (oops_do_log C rt value this). split.
    + exact (oops_do_emits C rt value this _ _ _ H).
    + apply oops_do_log_thread_last.
  - eexists. split.
    + exact (roots_do_emits C rt this _ _ _ H).
    + rewrite app_assoc. apply thread_roots_last_app.
      * destruct (StringDedup_is_enabled rt); reflexivity.
      * simpl. lia.
  - eexists. split.
    + exact (strong_roots_do_emits C rt this _ _ _ H).
    + apply (thread_roots_last_app
               [Visit ClassLoaderDataGraph_roots_cld_do;
                Visit JNIHandles_oops_do;
                Visit Universe_vm_global_oops_do]
               [Visit (Threads_possibly_parallel_oops_do true)]).
      * reflexivity.
      * simpl. lia.
Qed.

Lemma thread_roots_visited_last_witness :
  exists tr, calls w0_oops_do_all = calls w0 ++ tr /\ thread_roots_last tr.
Proof.
  apply (thread_roots_visited_last nat rt0 value0 OopsDo this_all w0 w0_oops_do_all).
  vm_compute. reflexivity.
Defined.



(* ================================================================== *)
(** * More on the root-type set *)

Ltac testbits :=
  repeat first
    [ rewrite Z.land_spec
    | rewrite Z.lor_spec
    | rewrite cast_testbit
    | rewrite not_testbit by assumption ].

Lemma in_range_testbit (t n : Z) :
  UInt.in_range t -> Z.testbit t n = true -> n < UInt.bits.
Proof.
  intros Ht Hb. rewrite <- (cast_id t Ht), cast_testbit in Hb.
  apply andb_true_iff in Hb. destruct Hb as [Hlt _].
  apply Z.ltb_lt, Hlt.
Qed.

Lemma excludes_testbit (this : ShenandoahRootVerifier) (c n : Z) :
  0 <= n ->
  Z.testbit (_types (excludes this c)) n =
  (n <? UInt.bits) && (Z.testbit (_types this) n && negb (Z.testbit c n)).
Proof.
  intros Hn. unfold excludes. simpl. testbits.
  destruct (n <? UInt.bits), (Z.testbit (_types this) n), (Z.testbit c n);
    reflexivity.
Qed.

Lemma excludes_narrows (this : ShenandoahRootVerifier) (c t : RootTypes) :
  verify (excludes this c) t = true -> verify this t = true.
Proof.
  rewrite !verify_testbit. intros H n Hn Hb.
  specialize (H n Hn Hb). rewrite excludes_testbit in H by assumption.
  apply andb_true_iff in H. destruct H as [_ H].
  apply andb_true_iff in H. apply H.
Qed.

Lemma excludes_verify_false (this : ShenandoahRootVerifier) (c : RootTypes) :
  UInt.in_range c -> c <> 0 -> verify (excludes this c) c = false.
Proof.
  intros Hr Hc. apply not_true_is_false. rewrite verify_testbit. intros H.
  assert (Hpos : 0 < c) by (unfold UInt.in_range in Hr; lia).
  pose proof (Z.bit_log2 c Hpos) as Hb.
  pose proof (Z.log2_nonneg c) as Hn.
  specialize (H _ Hn Hb). rewrite excludes_testbit, Hb in H by assumption.
  rewrite andb_false_r, andb_false_r in H. discriminate H.
Qed.

(** X1: excluding a non-empty mask [c] from a walker leaves a walker that
    does not contain [c]; the narrowed walker contains nothing the walker
    did not contain; and a mask that shares no bit with [c] is contained
    after the exclusion exactly when it was before. *)
Theorem excludes_removes_category (this : ShenandoahRootVerifier) (c : RootTypes) :
  UInt.in_range c -> c <> 0 ->
  verify (excludes this c) c = false /\
  (forall t, verify (excludes this c) t = true -> verify this t = true) /\
  (forall t, UInt.in_range t -> Z.land t c = 0 ->
             verify (excludes this c) t = verify this t).
Proof.
  intros Hr Hc. split; [|split].
  - apply excludes_verify_false; assumption.
  - intros t. apply excludes_narrows.
  - intros t Ht Hd. apply eq_true_iff_eq. split; [apply excludes_narrows|].
    rewrite !verify_testbit. intros H n Hn Hb.
    rewrite excludes_testbit by assumption.
    rewrite (H n Hn Hb).
    assert (Hlt : (n <? UInt.bits) = true)
      by (apply Z.ltb_lt; exact (in_range_testbit t n Ht Hb)).
    assert (Hcn : Z.testbit c n = false).
    { assert (E : Z.testbit (Z.land t c) n = false)
        by (rewrite Hd; apply Z.bits_0).
      rewrite Z.land_spec, Hb in E. exact E. }
    rewrite Hlt, Hcn. reflexivity.
Qed.

Lemma excludes_removes_category_witness :
  verify (excludes this_all (value0 ThreadRoots)) (value0 ThreadRoots) = false /\
  verify (excludes this_all (value0 ThreadRoots)) (value0 CodeRoots) = true.
Proof.
  assert (Hr : UInt.in_range (value0 ThreadRoots))
    by (unfold UInt.in_range; vm_compute; split; [discriminate | reflexivity]).
  assert (Hc : value0 ThreadRoots <> 0) by discriminate.
  destruct (excludes_removes_category this_all (value0 ThreadRoots) Hr Hc)
    as [Hgone [_ Hkept]].
  split; [exact Hgone|].
  rewrite Hkept; [reflexivity | | reflexivity].
  unfold UInt.in_range. vm_compute. split; [discriminate | reflexivity].
Defined.

(** X2: two exclusions in a row are one exclusion of the combination, in
    either order, and excluding the same mask twice changes nothing more. *)
Theorem excludes_excludes (this : ShenandoahRootVerifier) (a b : RootTypes) :
  excludes (excludes this a) b = excludes this (combine a b) /\
  excludes (excludes this a) b = excludes (excludes this b) a /\
  excludes (excludes this a) a = excludes this a.
Proof.
  unfold excludes, combine. simpl.
  split; [|split]; f_equal; apply Z.bits_inj'; intros n Hn; testbits;
    destruct (n <? UInt.bits), (Z.testbit (_types this) n),
             (Z.testbit a n), (Z.testbit b n); reflexivity.
Qed.

(** X3: [combine] is commutative and associative, combining a mask with
    itself or with the empty mask gives its [uint] value, and the result
    always lies in the range of [uint]. *)
Theorem combine_algebra (a b c : RootTypes) :
  combine a b = combine b a /\
  combine (combine a b) c = combine a (combine b c) /\
  combine a a = UInt.cast a /\
  combine a 0 = UInt.cast a /\
  UInt.in_range (combine a b).
Proof.
  assert (Hcast : UInt.cast (combine a b) = combine a b).
  { unfold combine. apply Z.bits_inj'. intros n Hn. testbits.
    destruct (n <? UInt.bits), (Z.testbit a n), (Z.testbit b n); reflexivity. }
  unfold combine in *. repeat split.
  - apply Z.lor_comm.
  - apply Z.bits_inj'. intros n Hn. testbits.
    destruct (n <? UInt.bits), (Z.testbit a n), (Z.testbit b n), (Z.testbit c n);
      reflexivity.
  - apply Z.lor_diag.
  - apply Z.lor_0_r.
  - rewrite <- Hcast. apply cast_range.
  - rewrite <- Hcast. apply cast_range.
Qed.

(** X4: containment is a partial order on masks: every walker contains its
    own set, containment is transitive, and two sets that contain each
    other are equal. *)
Theorem verify_partial_order :
  (forall this, verify this (_types this) = true) /\
  (forall a b c, verify {| _types := a |} b = true ->
                 verify {| _types := b |} c = true ->
                 verify {| _types := a |} c = true) /\
  (forall a b, verify {| _types := a |} b = true ->
               verify {| _types := b |} a = true -> a = b).
Proof.
  split; [|split].
  - intros this. unfold verify. rewrite Z.land_diag. apply Z.eqb_refl.
  - intros a b c. rewrite !verify_testbit. simpl. intros Hab Hbc n Hn Hb.
    apply (Hab n Hn), (Hbc n Hn), Hb.
  - intros a b. unfold verify. simpl. rewrite !Z.eqb_eq. intros Hab Hba.
    transitivity (Z.land a b); [|exact Hab].
    rewrite Z.land_comm. symmetry. exact Hba.
Qed.

(* ================================================================== *)
(** * Effects of a walk *)

Section EffectLemmas.

Variable C : Type.
Variable rt : Runtime C.

Lemma run_sources_app (t1 t2 : list Event) (st : C * ShenandoahHeap) :
  run_sources rt (t1 ++ t2) st = run_sources rt t2 (run_sources rt t1 st).
Proof. unfold run_sources. apply fold_left_app. Qed.

Lemma run_sources_visits {X : Type} (g : X -> RootSource) (l : list X)
      (st : C * ShenandoahHeap) :
  run_sources rt (map (fun x => Visit (g x)) l) st =
  fold_left (fun st x => source_do rt (g x) st) l st.
Proof.
  revert st. induction l as [|x l IH]; intros st; simpl; [reflexivity|].
  apply IH.
Qed.

Lemma performs_ret {A : Type} (a : A) : performs rt (@ret C A a) [].
Proof.
  intros w b w' H. unfold ret in H. injection H as _ <-.
  split; [symmetry; apply app_nil_r | reflexivity].
Qed.

Lemma performs_bind {A B : Type} (m : M C A) (k : A -> M C B) (t1 t2 : list Event) :
  performs rt m t1 -> (forall a, performs rt (k a) t2) ->
  performs rt (bind m k) (t1 ++ t2).
Proof.
  intros H1 H2 w b w' H. unfold bind in H.
  destruct (m w) as [[a w1]|] eqn:E; [|discriminate].
  destruct (H1 _ _ _ E) as [Hc1 Hs1]. destruct (H2 a _ _ _ H) as [Hc2 Hs2].
  split.
  - rewrite Hc2, Hc1, app_assoc. reflexivity.
  - rewrite Hs2, Hs1, run_sources_app. reflexivity.
Qed.

Lemma performs_if {A : Type} (b : bool) (m1 m2 : M C A) (t1 t2 : list Event) :
  performs rt m1 t1 -> performs rt m2 t2 ->
  performs rt (if b then m1 else m2) (if b then t1 else t2).
Proof. destruct b; auto. Qed.

Lemma performs_eq {A : Type} (m : M C A) (t t' : list Event) :
  performs rt m t -> t = t' -> performs rt m t'.
Proof. intros H <-. exact H. Qed.

Lemma performs_assert (cond : bool) : performs rt (assert_ C rt cond) [].
Proof.
  intros w a w' H. unfold assert_ in H.
  destruct (ASSERT rt && negb cond); [discriminate|].
  injection H as _ <-. split; [symmetry; apply app_nil_r | reflexivity].
Qed.

Lemma performs_enter (f : WeakHelper) : performs rt (log C (Enter f)) [Enter f].
Proof.
  intros w a w' H. unfold log in H. injection H as _ <-.
  split; reflexivity.
Qed.

Lemma performs_call (s : RootSource) : performs rt (call C rt s) [Visit s].
Proof.
  intros w a w' H. unfold call in H. simpl.
  destruct (source_do rt s (client w, heap w)) as [c h].
  injection H as _ <-. split; reflexivity.
Qed.

Lemma performs_for_each_call {X : Type} (g : X -> RootSource) (l : list X) :
  performs rt (for_each l (fun x => call C rt (g x)))
           (map (fun x => Visit (g x)) l).
Proof.
  induction l as [|x l IH]; simpl.
  - apply performs_ret.
  - apply (performs_bind _ _ [Visit (g x)]).
    + apply performs_call.
    + intros _. exact IH.
Qed.

(** The world a scoped body leaves: the collector state of the start, the
    client state and the log of the body. *)
Lemma scoped_performs (body : M C unit) (tr : list Event) (w w' : World C) (u : unit) :
  performs rt body tr ->
  (resetter <- ShenandoahGCStateResetter_ctor C ;;
   body ;;
   ShenandoahGCStateResetter_dtor C rt resetter) w = Some (u, w') ->
  w' = {| heap := heap w;
          client := fst (run_sources rt tr (client w, heap w));
          calls := calls w ++ tr |}.
Proof.
  intros Hb H. rewrite scoped_run in H.
  destruct (body w) as [[u1 w1]|] eqn:E; [|discriminate].
  injection H as _ <-. destruct (Hb _ _ _ E) as [Hc Hs].
  rewrite <- Hs, Hc. reflexivity.
Qed.

Lemma decided_ret {A : Type} (a : A) : decided (@ret C A a) true.
Proof. apply completes_ret. Qed.

Lemma decided_bind {A B : Type} (m : M C A) (k : A -> M C B) (b1 b2 : bool) :
  decided m b1 -> (forall a, decided (k a) b2) -> decided (bind m k) (b1 && b2).
Proof.
  destruct b1; simpl; intros H1 H2.
  - destruct b2; simpl in *.
    + apply completes_bind; assumption.
    + intros w. unfold bind. destruct (m w) as [[a w1]|]; [apply H2 | reflexivity].
  - intros w. unfold bind. rewrite (H1 w). reflexivity.
Qed.

Lemma decided_if {A : Type} (c : bool) (m1 m2 : M C A) (b1 b2 : bool) :
  decided m1 b1 -> decided m2 b2 ->
  decided (if c then m1 else m2) (if c then b1 else b2).
Proof. destruct c; auto. Qed.

Lemma decided_eq {A : Type} (m : M C A) (b b' : bool) :
  decided m b -> b = b' -> decided m b'.
Proof. intros H <-. exact H. Qed.

Lemma decided_assert (cond : bool) :
  decided (assert_ C rt cond) (negb (ASSERT rt && negb cond)).
Proof.
  unfold decided, assert_.
  destruct (ASSERT rt && negb cond); simpl; intros w;
    [reflexivity | exists tt, w; reflexivity].
Qed.

Lemma decided_log (e : Event) : decided (log C e) true.
Proof. apply completes_log. Qed.

Lemma decided_call (s : RootSource) : decided (call C rt s) true.
Proof. apply completes_call. Qed.

Lemma decided_for_each_call {X : Type} (g : X -> RootSource) (l : list X) :
  decided (for_each l (fun x => call C rt (g x))) true.
Proof. apply completes_for_each. intros x. apply completes_call. Qed.

Lemma scoped_decided (body : M C unit) (b : bool) :
  decided body b ->
  decided (resetter <- ShenandoahGCStateResetter_ctor C ;;
           body ;;
           ShenandoahGCStateResetter_dtor C rt resetter) b.
Proof.
  destruct b; simpl; intros H.
  - apply scoped_completes, H.
  - intros w. rewrite scoped_run, (H w). reflexivity.
Qed.

(** What [decided] says about one run. *)
Lemma decided_none {A : Type} (m : M C A) (b : bool) (w : World C) :
  decided m b -> (m w = None <-> b = false).
Proof.
  destruct b; simpl; intros H.
  - destruct (H w) as [a [w' E]]. rewrite E. split; discriminate.
  - rewrite (H w). split; reflexivity.
Qed.

End EffectLemmas.

Ltac performs_steps :=
  repeat first
    [ apply performs_for_each_call
    | apply performs_call
    | apply performs_enter
    | apply performs_assert
    | apply performs_ret
    | eapply performs_if
    | eapply performs_bind; [|intros ?] ].

Ltac decided_steps :=
  repeat first
    [ apply decided_for_each_call
    | apply decided_call
    | apply decided_log
    | apply decided_assert
    | apply decided_ret
    | eapply decided_if
    | eapply decided_bind; [|intros ?] ].

Section WalkEffects.

Variable C : Type.
Variable rt : Runtime C.
Variable value : RootCategory -> RootTypes.
Variable this : ShenandoahRootVerifier.

Lemma walk_performs (e : EntryPoint) (w w' : World C) (u : unit) :
  walk C rt value e this w = Some (u, w') ->
  w' = {| heap := heap w;
          client := fst (run_sources rt (walk_log C rt value e this)
                                     (client w, heap w));
          calls := calls w ++ walk_log C rt value e this |}.
Proof.
  intros H.
  destruct e; refine (scoped_performs C rt _ _ w w' u _ H);
    unfold walk_log; unfold_helpers.
  - eapply performs_eq; [performs_steps|].
    unfold oops_do_log, before_weak_log, weak_log, string_dedup_log, thread_log.
    repeat match goal with
           | |- context [if ?b then _ else _] => destruct b
           end; reflexivity.
  - eapply performs_eq; [performs_steps|].
    destruct (StringDedup_is_enabled rt); reflexivity.
  - eapply performs_eq; [performs_steps|]. reflexivity.
Qed.

Lemma oops_do_decided :
  decided (oops_do C rt value this)
          (negb (ASSERT rt) || oops_do_asserts C rt value this).
Proof.
  unfold oops_do. apply scoped_decided. unfold_helpers.
  eapply decided_eq; [decided_steps|].
  unfold oops_do_asserts.
  destruct (ASSERT rt), (is_at_safepoint rt),
    (owned_by_self rt CodeCache_lock),
    (owned_by_self rt ClassLoaderDataGraph_lock),
    (StringDedup_is_enabled rt),
    (verify this (value CodeRoots)), (verify this (value CLDGRoots)),
    (verify this (value SerialRoots)), (verify this (value JNIHandleRoots)),
    (verify this (value WeakRoots)), (verify this (value SerialWeakRoots)),
    (verify this (value ConcurrentWeakRoots)),
    (verify this (value StringDedupRoots)), (verify this (value ThreadRoots));
    reflexivity.
Qed.

Lemma roots_do_decided :
  decided (roots_do C rt this) (negb (ASSERT rt) || is_at_safepoint rt).
Proof.
  unfold roots_do. apply scoped_decided. unfold_helpers.
  eapply decided_eq; [decided_steps|].
  destruct (ASSERT rt), (is_at_safepoint rt), (StringDedup_is_enabled rt);
    reflexivity.
Qed.

Lemma strong_roots_do_decided :
  decided (strong_roots_do C rt this) (negb (ASSERT rt) || is_at_safepoint rt).
Proof.
  unfold strong_roots_do. apply scoped_decided. unfold_helpers.
  eapply decided_eq; [decided_steps|].
  destruct (ASSERT rt), (is_at_safepoint rt); reflexivity.
Qed.

End WalkEffects.

(* ================================================================== *)
(** * The unconditional walks *)

(** C5: [roots_do] does not look at the walker's set; a run that returns
    has made exactly these calls, in this order: the code cache, the
    class-loader graph, the JNI and VM-global handles, the full weak walk
    with the always-true predicate, the string-deduplication table if and
    only if deduplication is enabled, and the thread roots; the closure has
    been through each of these root sources once, in that order, starting
    from the state of the start; no call is made twice; and when no assert
    can fail the run returns. *)
Theorem roots_do_visits_all
        (C : Type) (rt : Runtime C) (this : ShenandoahRootVerifier) (w : World C) :
  let tr :=
    [Visit CodeCache_blobs_do;
     Visit ClassLoaderDataGraph_cld_do;
     Visit JNIHandles_oops_do;
     Visit Universe_vm_global_oops_do;
     Visit (WeakProcessor_weak_oops_do AlwaysTrueClosure)]
    ++ (if StringDedup_is_enabled rt
        then [Visit ShenandoahStringDedup_oops_do_slow] else [])
    ++ [Visit (Threads_possibly_parallel_oops_do true)] in
  (forall w', roots_do C rt this w = Some (tt, w') ->
              calls w' = calls w ++ tr /\
              client w' = fst (run_sources rt tr (client w, heap w))) /\
  (asserts_pass rt -> exists w', roots_do C rt this w = Some (tt, w')) /\
  (forall this', roots_do C rt this' w = roots_do C rt this w) /\
  NoDup tr.
Proof.
  intros tr. split; [|split; [|split]].
  - intros w' H.
    pose proof (walk_performs C rt (fun _ => 0) this RootsDo w w' tt H) as R.
    rewrite R. split; reflexivity.
  - intros H. destruct (roots_do_completes C rt this H w) as [[] [w' E]].
    exists w'. exact E.
  - intros this'. reflexivity.
  - unfold tr. destruct (StringDedup_is_enabled rt); simpl;
      repeat (constructor;
              [simpl; intros F;
               repeat (destruct F as [F|F]; [discriminate F|]); exact F|]);
      constructor.
Qed.

(** At [rt0] the closure-side state counts the calls: seven of them. *)
Lemma roots_do_visits_all_witness :
  roots_do nat rt0 this_all w0 = Some (tt, w0_roots_do) /\
  calls w0_roots_do =
    [Visit CodeCache_blobs_do;
     Visit ClassLoaderDataGraph_cld_do;
     Visit JNIHandles_oops_do;
     Visit Universe_vm_global_oops_do;
     Visit (WeakProcessor_weak_oops_do AlwaysTrueClosure);
     Visit ShenandoahStringDedup_oops_do_slow;
     Visit (Threads_possibly_parallel_oops_do true)] /\
  client w0_roots_do = 7%nat.
Proof.
  assert (E : roots_do nat rt0 this_all w0 = Some (tt, w0_roots_do))
    by (vm_compute; reflexivity).
  split; [exact E|].
  destruct (proj1 (roots_do_visits_all nat rt0 this_all w0) w0_roots_do E)
    as [Hlog Hclient].
  split; [exact Hlog|].
  rewrite Hclient. reflexivity.
Defined.

(** C4, as the code has it: a run of [strong_roots_do] that returns has
    made exactly these calls, in this order: the strong part of the
    class-loader graph, the JNI handles, the VM-global handles, and the
    thread roots; the closure has been through each of these root sources
    once, in that order, starting from the state of the start; the run
    makes no call to the code cache, to the weak-reference processor in any
    of its three forms, or to the string-deduplication table; and when no
    assert can fail the run returns. *)
Theorem strong_roots_do_visits
        (C : Type) (rt : Runtime C) (this : ShenandoahRootVerifier) (w : World C) :
  let tr :=
    [Visit ClassLoaderDataGraph_roots_cld_do;
     Visit JNIHandles_oops_do;
     Visit Universe_vm_global_oops_do;
     Visit (Threads_possibly_parallel_oops_do true)] in
  (forall w', strong_roots_do C rt this w = Some (tt, w') ->
              calls w' = calls w ++ tr /\
              client w' = fst (run_sources rt tr (client w, heap w))) /\
  (asserts_pass rt -> exists w', strong_roots_do C rt this w = Some (tt, w')) /\
  full_weak_walk_runs tr = false /\
  serial_strategy_runs tr = false /\
  concurrent_strategy_runs tr = false /\
  ~ In (Visit ShenandoahStringDedup_oops_do_slow) tr /\
  ~ In (Visit CodeCache_blobs_do) tr.
Proof.
  intros tr. split; [|split].
  - intros w' H.
    pose proof (walk_performs C rt (fun _ => 0) this StrongRootsDo w w' tt H) as R.
    rewrite R. split; reflexivity.
  - intros H. destruct (strong_roots_do_completes C rt this H w) as [[] [w' E]].
    exists w'. exact E.
  - repeat split; try reflexivity;
      simpl; intros F; repeat (destruct F as [F|F]; [discriminate F|]); exact F.
Qed.

(** At [rt0] the closure-side state counts the calls: four of them. *)
Lemma strong_roots_do_visits_witness :
  strong_roots_do nat rt0 this_all w0 = Some (tt, w0_strong_roots_do) /\
  calls w0_strong_roots_do =
    [Visit ClassLoaderDataGraph_roots_cld_do;
     Visit JNIHandles_oops_do;
     Visit Universe_vm_global_oops_do;
     Visit (Threads_possibly_parallel_oops_do true)] /\
  client w0_strong_roots_do = 4%nat.
Proof.
  assert (E : strong_roots_do nat rt0 this_all w0 = Some (tt, w0_strong_roots_do))
    by (vm_compute; reflexivity).
  split; [exact E|].
  destruct (proj1 (strong_roots_do_visits nat rt0 this_all w0) w0_strong_roots_do E)
    as [Hlog Hclient].
  split; [exact Hlog|].
  rewrite Hclient. reflexivity.
Defined.

(** C4, as the specification words it, fails: the run of [strong_roots_do]
    from [w0] returns, its log is not the one that starts with the code
    cache, and the code cache is not in it at all. *)
Lemma strong_roots_do_skips_code_cache :
  strong_roots_do nat rt0 this_all w0 = Some (tt, w0_strong_roots_do) /\
  calls w0_strong_roots_do <> calls w0 ++ strong_roots_do_claimed_log /\
  ~ In (Visit CodeCache_blobs_do) (calls w0_strong_roots_do).
Proof.
  split; [vm_compute; reflexivity|]. split.
  - discriminate.
  - simpl. intros F. repeat (destruct F as [F|F]; [discriminate F|]). exact F.
Qed.

Section SelectedLogs.

Variable C : Type.
Variable rt : Runtime C.
Variable value : RootCategory -> RootTypes.
Variable this : ShenandoahRootVerifier.

Ltac log_events :=
  unfold oops_do_log, before_weak_log, weak_log, string_dedup_log, thread_log;
  rewrite ?andb_false_r;
  rewrite !existsb_app;
  repeat match goal with
         | |- context [if ?b then _ else _] => destruct b
         end; simpl;
  rewrite ?existsb_map_visit by reflexivity; reflexivity.

Lemma oops_do_log_unselected (c : RootCategory) :
  verify this (value c) = false ->
  existsb (dispatches c) (oops_do_log C rt value this) = false.
Proof.
  intros H. destruct c;
    unfold oops_do_log, before_weak_log, weak_log, string_dedup_log, thread_log;
    rewrite ?H; log_events.
Qed.

Lemma oops_do_log_selected :
  existsb (dispatches CodeRoots) (oops_do_log C rt value this) =
    verify this (value CodeRoots) /\
  existsb (dispatches CLDGRoots) (oops_do_log C rt value this) =
    verify this (value CLDGRoots) /\
  existsb (dispatches JNIHandleRoots) (oops_do_log C rt value this) =
    verify this (value JNIHandleRoots) /\
  existsb (dispatches StringDedupRoots) (oops_do_log C rt value this) =
    StringDedup_is_enabled rt && verify this (value StringDedupRoots) /\
  existsb (dispatches ThreadRoots) (oops_do_log C rt value this) =
    verify this (value ThreadRoots).
Proof.
  repeat split;
    unfold oops_do_log, before_weak_log, weak_log, string_dedup_log, thread_log;
    rewrite !existsb_app;
    destruct (StringDedup_is_enabled rt),
      (verify this (value CodeRoots)), (verify this (value CLDGRoots)),
      (verify this (value JNIHandleRoots)),
      (verify this (value WeakRoots)), (verify this (value SerialWeakRoots)),
      (verify this (value ConcurrentWeakRoots)),
      (verify this (value StringDedupRoots)), (verify this (value ThreadRoots));
    simpl; rewrite ?existsb_map_visit by reflexivity; reflexivity.
Qed.

Lemma oops_do_log_none :
  (forall c, verify this (value c) = false) -> oops_do_log C rt value this = [].
Proof.
  intros H.
  unfold oops_do_log, before_weak_log, weak_log, string_dedup_log, thread_log.
  rewrite !H, andb_false_r. reflexivity.
Qed.

Lemma oops_do_log_all :
  (forall c, verify this (value c) = true) ->
  oops_do_log C rt value this =
  ([Visit CodeCache_blobs_do;
    Visit ClassLoaderDataGraph_cld_do;
    Visit JNIHandles_oops_do;
    Visit Universe_vm_global_oops_do;
    Visit (WeakProcessor_weak_oops_do AlwaysTrueClosure)]
   ++ (if StringDedup_is_enabled rt
       then [Visit ShenandoahStringDedup_oops_do_slow] else []))
  ++ [Visit (Threads_possibly_parallel_oops_do false)].
Proof.
  intros H.
  unfold oops_do_log, before_weak_log, weak_log, string_dedup_log, thread_log.
  rewrite !H, andb_true_r.
  destruct (StringDedup_is_enabled rt); reflexivity.
Qed.

End SelectedLogs.

(* ================================================================== *)
(** * The weak-root helpers *)

(** X5: [serial_weak_roots_do] never fails; it calls the processor of every
    phase of the serial iterator once, in the order of the iterator, with
    the always-true predicate, and makes no other call (none at all when
    the iterator is empty).  [concurrent_weak_roots_do] does the same over
    the storages of the weak iterator.  Neither asserts a safepoint. *)
Theorem weak_helpers_visit_all (C : Type) (rt : Runtime C) (w : World C) :
  (exists w',
      serial_weak_roots_do C rt w = Some (tt, w') /\
      calls w' = calls w ++
                 Enter SerialWeakRootsDo ::
                 map (fun phase =>
                        Visit (WeakProcessorPhases_processor phase AlwaysTrueClosure))
                     (serial_iterator rt) /\
      (client w', heap w') =
      fold_left (fun st phase =>
                   source_do rt (WeakProcessorPhases_processor phase AlwaysTrueClosure) st)
                (serial_iterator rt) (client w, heap w)) /\
  (exists w',
      concurrent_weak_roots_do C rt w = Some (tt, w') /\
      calls w' = calls w ++
                 Enter ConcurrentWeakRootsDo ::
                 map (fun storage => Visit (OopStorage_oops_do storage))
                     (weak_iterator rt) /\
      (client w', heap w') =
      fold_left (fun st storage => source_do rt (OopStorage_oops_do storage) st)
                (weak_iterator rt) (client w, heap w)).
Proof.
  split.
  - assert (Hc : completes (serial_weak_roots_do C rt)).
    { unfold serial_weak_roots_do. apply completes_bind; [apply completes_log|].
      intros _. apply completes_for_each. intros x. apply completes_call. }
    destruct (Hc w) as [[] [w' E]]. exists w'. split; [exact E|].
    assert (Hp : performs rt (serial_weak_roots_do C rt)
                   ([Enter SerialWeakRootsDo] ++
                    map (fun phase =>
                           Visit (WeakProcessorPhases_processor phase AlwaysTrueClosure))
                        (serial_iterator rt))).
    { unfold serial_weak_roots_do. performs_steps. }
    destruct (Hp _ _ _ E) as [Hlog Heff]. split; [exact Hlog|].
    rewrite Heff, run_sources_app. simpl. apply run_sources_visits.
  - assert (Hc : completes (concurrent_weak_roots_do C rt)).
    { unfold concurrent_weak_roots_do. apply completes_bind; [apply completes_log|].
      intros _. apply completes_for_each. intros x. apply completes_call. }
    destruct (Hc w) as [[] [w' E]]. exists w'. split; [exact E|].
    assert (Hp : performs rt (concurrent_weak_roots_do C rt)
                   ([Enter ConcurrentWeakRootsDo] ++
                    map (fun storage => Visit (OopStorage_oops_do storage))
                        (weak_iterator rt))).
    { unfold concurrent_weak_roots_do. performs_steps. }
    destruct (Hp _ _ _ E) as [Hlog Heff]. split; [exact Hlog|].
    rewrite Heff, run_sources_app. simpl. apply run_sources_visits.
Qed.

(* ================================================================== *)
(** * The result of a walk *)

(** X6: a walk that returns leaves the collector state of its start, the
    log extended by the calls of its entry point, and the client state
    that those calls produce one after the other from the state of the
    start: the resetter changes nothing before the first call, so the root
    sources see the collector state as it was when the walk began.  When
    no assert can fail the walk returns that world. *)
Theorem walk_result
        (C : Type) (rt : Runtime C) (value : RootCategory -> RootTypes)
        (e : EntryPoint) (this : ShenandoahRootVerifier) (w : World C) :
  let result :=
    {| heap := heap w;
       client := fst (run_sources rt (walk_log C rt value e this)
                                  (client w, heap w));
       calls := calls w ++ walk_log C rt value e this |} in
  (forall w', walk C rt value e this w = Some (tt, w') -> w' = result) /\
  (asserts_pass rt -> walk C rt value e this w = Some (tt, result)).
Proof.
  intros result. split.
  - intros w' E. exact (walk_performs C rt value this e w w' tt E).
  - intros Hp. destruct (walk_completes C rt value this e Hp w) as [[] [w' E]].
    rewrite E. f_equal. f_equal.
    exact (walk_performs C rt value this e w w' tt E).
Qed.

Lemma walk_result_witness :
  walk nat rt0 value0 OopsDo this_all w0 =
  Some (tt, {| heap := {| gc_state := 5;
                          is_concurrent_weak_root_in_progress := false |};
               client := 7%nat;
               calls := [Visit CodeCache_blobs_do;
                         Visit ClassLoaderDataGraph_cld_do;
                         Visit JNIHandles_oops_do;
                         Visit Universe_vm_global_oops_do;
                         Visit (WeakProcessor_weak_oops_do AlwaysTrueClosure);
                         Visit ShenandoahStringDedup_oops_do_slow;
                         Visit (Threads_possibly_parallel_oops_do false)] |}).
Proof.
  exact (proj2 (walk_result nat rt0 value0 OopsDo this_all w0) (or_intror eq_refl)).
Defined.

(** X7: a walk fails only on an assert.  [oops_do] fails exactly in a debug
    build in which a category of the walker's set is walked without what
    its branch asserts: the code-cache lock or a safepoint for [CodeRoots],
    the class-loader-graph lock or a safepoint for [CLDGRoots], a safepoint
    for [SerialRoots], [JNIHandleRoots], [WeakRoots], [SerialWeakRoots],
    [ThreadRoots] and, with deduplication enabled, [StringDedupRoots];
    [ConcurrentWeakRoots] asserts nothing.  [roots_do] and
    [strong_roots_do] fail exactly in a debug build outside a safepoint. *)
Theorem walk_fails_iff
        (C : Type) (rt : Runtime C) (value : RootCategory -> RootTypes)
        (this : ShenandoahRootVerifier) (w : World C) :
  (oops_do C rt value this w = None <->
   ASSERT rt = true /\ oops_do_asserts C rt value this = false) /\
  (roots_do C rt this w = None <->
   ASSERT rt = true /\ is_at_safepoint rt = false) /\
  (strong_roots_do C rt this w = None <->
   ASSERT rt = true /\ is_at_safepoint rt = false).
Proof.
  split; [|split].
  - rewrite (decided_none C _ _ w (oops_do_decided C rt value this)).
    destruct (ASSERT rt), (oops_do_asserts C rt value this); simpl; intuition congruence.
  - rewrite (decided_none C _ _ w (roots_do_decided C rt this)).
    destruct (ASSERT rt), (is_at_safepoint rt); simpl; intuition congruence.
  - rewrite (decided_none C _ _ w (strong_roots_do_decided C rt this)).
    destruct (ASSERT rt), (is_at_safepoint rt); simpl; intuition congruence.
Qed.

(** X8: a walker none of whose categories is enabled makes [oops_do] a
    no-op: it returns, in any build and outside a safepoint too, and leaves
    the world as it found it. *)
Theorem oops_do_nothing_selected
        (C : Type) (rt : Runtime C) (value : RootCategory -> RootTypes)
        (this : ShenandoahRootVerifier) (w : World C) :
  (forall c, verify this (value c) = false) ->
  oops_do C rt value this w = Some (tt, w).
Proof.
  intros H.
  destruct (oops_do C rt value this w) as [[[] w']|] eqn:E.
  - pose proof (walk_performs C rt value this OopsDo w w' tt E) as R.
    simpl in R. rewrite (oops_do_log_none C rt value this H) in R.
    simpl in R. rewrite app_nil_r in R. rewrite R. destruct w; reflexivity.
  - apply (decided_none C _ _ w (oops_do_decided C rt value this)) in E.
    unfold oops_do_asserts in E. rewrite !H, andb_false_r in E. simpl in E.
    rewrite orb_true_r in E. discriminate E.
Qed.

Lemma oops_do_nothing_selected_witness :
  oops_do nat rt1 value0 this_none w0 = Some (tt, w0).
Proof.
  apply (oops_do_nothing_selected nat rt1 value0 this_none w0).
  intros c. destruct c; reflexivity.
Defined.

(* ================================================================== *)
(** * The filtered walk and its set *)

(** X9: with every category enabled, [oops_do] makes the calls of
    [roots_do] in the same order, except that it walks the threads with
    [is_par = false] where [roots_do] passes [true]; in both walks the
    closure has been through the root sources of the log, in its order; and
    the two fail on the same runtimes. *)
Theorem oops_do_all_selected
        (C : Type) (rt : Runtime C) (value : RootCategory -> RootTypes)
        (this : ShenandoahRootVerifier) (w : World C) :
  (forall c, verify this (value c) = true) ->
  let shared :=
    [Visit CodeCache_blobs_do;
     Visit ClassLoaderDataGraph_cld_do;
     Visit JNIHandles_oops_do;
     Visit Universe_vm_global_oops_do;
     Visit (WeakProcessor_weak_oops_do AlwaysTrueClosure)]
    ++ (if StringDedup_is_enabled rt
        then [Visit ShenandoahStringDedup_oops_do_slow] else []) in
  (oops_do C rt value this w = None <-> roots_do C rt this w = None) /\
  (forall w1, oops_do C rt value this w = Some (tt, w1) ->
              calls w1 = calls w ++ shared ++
                         [Visit (Threads_possibly_parallel_oops_do false)] /\
              client w1 =
              fst (run_sources rt
                     (shared ++ [Visit (Threads_possibly_parallel_oops_do false)])
                     (client w, heap w))) /\
  (forall w2, roots_do C rt this w = Some (tt, w2) ->
              calls w2 = calls w ++ shared ++
                         [Visit (Threads_possibly_parallel_oops_do true)] /\
              client w2 =
              fst (run_sources rt
                     (shared ++ [Visit (Threads_possibly_parallel_oops_do true)])
                     (client w, heap w))).
Proof.
  intros H shared. split; [|split].
  - rewrite (decided_none C _ _ w (oops_do_decided C rt value this)).
    rewrite (decided_none C _ _ w (roots_do_decided C rt this)).
    unfold oops_do_asserts. rewrite !H.
    destruct (ASSERT rt), (is_at_safepoint rt),
      (owned_by_self rt CodeCache_lock),
      (owned_by_self rt ClassLoaderDataGraph_lock),
      (StringDedup_is_enabled rt); simpl; split; auto.
  - intros w1 E.
    pose proof (walk_performs C rt value this OopsDo w w1 tt E) as R.
    simpl in R. rewrite (oops_do_log_all C rt value this H) in R.
    rewrite R. split; reflexivity.
  - intros w2 E.
    pose proof (walk_performs C rt value this RootsDo w w2 tt E) as R.
    unfold walk_log in R. rewrite app_assoc in R.
    rewrite R. split; reflexivity.
Qed.

Lemma this_all_verifies (c : RootCategory) : verify this_all (value0 c) = true.
Proof. destruct c; reflexivity. Defined.

Lemma oops_do_all_selected_witness :
  calls w0_oops_do_all =
    [Visit CodeCache_blobs_do;
     Visit ClassLoaderDataGraph_cld_do;
     Visit JNIHandles_oops_do;
     Visit Universe_vm_global_oops_do;
     Visit (WeakProcessor_weak_oops_do AlwaysTrueClosure);
     Visit ShenandoahStringDedup_oops_do_slow;
     Visit (Threads_possibly_parallel_oops_do false)] /\
  calls w0_roots_do =
    [Visit CodeCache_blobs_do;
     Visit ClassLoaderDataGraph_cld_do;
     Visit JNIHandles_oops_do;
     Visit Universe_vm_global_oops_do;
     Visit (WeakProcessor_weak_oops_do AlwaysTrueClosure);
     Visit ShenandoahStringDedup_oops_do_slow;
     Visit (Threads_possibly_parallel_oops_do true)].
Proof.
  destruct (oops_do_all_selected nat rt0 value0 this_all w0 this_all_verifies)
    as [_ [Hoops Hroots]].
  split.
  - apply (Hoops w0_oops_do_all). vm_compute. reflexivity.
  - apply (Hroots w0_roots_do). vm_compute. reflexivity.
Defined.

(** X10: [oops_do] is a filter: in a run that returns, the events of the
    branch of a category the walker does not contain never occur; the code
    cache, the class-loader graph, the handle tables and the thread roots
    are called exactly when their category is contained, and the
    deduplication table exactly when it is contained and deduplication is
    enabled; the closure has been through the root sources of the log, in
    its order. *)
Theorem oops_do_visits_selected_only
        (C : Type) (rt : Runtime C) (value : RootCategory -> RootTypes)
        (this : ShenandoahRootVerifier) (w w' : World C) :
  oops_do C rt value this w = Some (tt, w') ->
  exists tr,
    calls w' = calls w ++ tr /\
    client w' = fst (run_sources rt tr (client w, heap w)) /\
    (forall c, verify this (value c) = false -> existsb (dispatches c) tr = false) /\
    existsb (dispatches CodeRoots) tr = verify this (value CodeRoots) /\
    existsb (dispatches CLDGRoots) tr = verify this (value CLDGRoots) /\
    existsb (dispatches JNIHandleRoots) tr = verify this (value JNIHandleRoots) /\
    existsb (dispatches StringDedupRoots) tr =
      StringDedup_is_enabled rt && verify this (value StringDedupRoots) /\
    existsb (dispatches ThreadRoots) tr = verify this (value ThreadRoots).
Proof.
  intros E. exists (oops_do_log C rt value this).
  pose proof (walk_performs C rt value this OopsDo w w' tt E) as R.
  simpl in R.
  split; [rewrite R; reflexivity|].
  split; [rewrite R; reflexivity|].
  split; [intros c; apply oops_do_log_unselected|].
  apply oops_do_log_selected.
Qed.

Lemma oops_do_visits_selected_only_witness :
  exists tr,
    calls w0_oops_do_weak_and_serial = calls w0 ++ tr /\
    existsb (dispatches ThreadRoots) tr = false /\
    existsb (dispatches CodeRoots) tr = false.
Proof.
  destruct (oops_do_visits_selected_only nat rt0 value0 this_weak_and_serial
              w0 w0_oops_do_weak_and_serial)
    as [tr [Hlog [_ [_ [Hcode [_ [_ [_ Hthread]]]]]]]].
  - vm_compute. reflexivity.
  - exists tr. split; [exact Hlog|].
    split; [rewrite Hthread | rewrite Hcode]; reflexivity.
Defined.

(** X11: once a non-empty category mask has been excluded from a walker,
    [oops_do] on the narrowed walker never reaches the branch of that
    category, whatever the walker contained before. *)
Theorem excluded_category_not_visited
        (C : Type) (rt : Runtime C) (value : RootCategory -> RootTypes)
        (this : ShenandoahRootVerifier) (c : RootCategory) (w w' : World C) :
  UInt.in_range (value c) -> value c <> 0 ->
  oops_do C rt value (excludes this (value c)) w = Some (tt, w') ->
  exists tr,
    calls w' = calls w ++ tr /\ existsb (dispatches c) tr = false.
Proof.
  intros Hr Hc E. exists (oops_do_log C rt value (excludes this (value c))).
  split; [exact (oops_do_emits C rt value _ _ _ _ E)|].
  apply oops_do_log_unselected. apply excludes_verify_false; assumption.
Qed.

Lemma excluded_category_not_visited_witness :
  exists w' tr,
    oops_do nat rt0 value0 (excludes this_all (value0 ThreadRoots)) w0 = Some (tt, w') /\
    calls w' = calls w0 ++ tr /\
    existsb (dispatches ThreadRoots) tr = false.
Proof.
  destruct (oops_do nat rt0 value0 (excludes this_all (value0 ThreadRoots)) w0)
    as [[[] w']|] eqn:E; [|vm_compute in E; discriminate E].
  assert (Hr : UInt.in_range (value0 ThreadRoots))
    by (unfold UInt.in_range; vm_compute; split; [discriminate | reflexivity]).
  assert (Hc : value0 ThreadRoots <> 0) by discriminate.
  destruct (excluded_category_not_visited nat rt0 value0 this_all ThreadRoots
              w0 w' Hr Hc E) as [tr [Hlog Hno]].
  exists w', tr. split; [reflexivity|]. split; assumption.
Defined.

(* ================================================================== *)
(** * Walks in a row *)

(** X12: any number of walks in a row, by any entry points of any walkers,
    if they all return, leave the collector state of the start and a log
    that is the logs of the walks one after the other; they all return
    when no assert can fail. *)
Theorem run_walks_restore
        (C : Type) (rt : Runtime C) (value : RootCategory -> RootTypes)
        (walks : list (EntryPoint * ShenandoahRootVerifier)) (w : World C) :
  (forall w', run_walks C rt value walks w = Some (tt, w') ->
              heap w' = heap w /\
              calls w' = calls w ++
                         concat (map (fun p => walk_log C rt value (fst p) (snd p))
                                     walks)) /\
  (asserts_pass rt -> exists w', run_walks C rt value walks w = Some (tt, w')).
Proof.
  split.
  - revert w. unfold run_walks.
    induction walks as [|[e this] walks IH]; intros w w' H; simpl in *.
    + unfold ret in H. injection H as <-. split; [reflexivity|].
      symmetry. apply app_nil_r.
    + unfold bind in H.
      destruct (walk C rt value e this w) as [[[] w1]|] eqn:E; [|discriminate H].
      destruct (IH w1 w' H) as [Hh Hc].
      pose proof (walk_performs C rt value this e w w1 tt E) as R.
      rewrite Hh, Hc, R. simpl. split; [reflexivity|].
      rewrite app_assoc. reflexivity.
  - intros Hp.
    assert (Hc : completes (run_walks C rt value walks)).
    { unfold run_walks. apply completes_for_each. intros [e this].
      apply walk_completes, Hp. }
    destruct (Hc w) as [[] [w' E]]. exists w'. exact E.
Qed.

Lemma run_walks_restore_witness :
  exists w',
    run_walks nat rt0 value0
              [(OopsDo, this_all); (StrongRootsDo, this_none); (RootsDo, this_none)]
              w0 = Some (tt, w') /\
    heap w' = heap w0 /\
    length (calls w') = 18%nat.
Proof.
  destruct (run_walks_restore nat rt0 value0
              [(OopsDo, this_all); (StrongRootsDo, this_none); (RootsDo, this_none)]
              w0) as [Hrestore Hreturn].
  destruct (Hreturn (or_intror eq_refl)) as [w' E].
  exists w'. split; [exact E|].
  destruct (Hrestore w' E) as [Hh Hc].
  split; [exact Hh|]. rewrite Hc. reflexivity.
Defined.
